(** * Tic-tac-toe: state model, outcome classifier and minimax scorer

    A shallow embedding of [tic_tac_toe.py].  Cells are Python ints ([Z]),
    player marks are Python strings, the ownership dict is a finite map and
    the list of unowned cells is a list.  Functions of the source that
    cannot raise are plain functions; the ones that can raise return a
    [result]. *)

From stdpp Require Import gmap strings pretty list fin_maps.
From Stdlib Require Import ZArith Lia.

Open Scope Z_scope.

(** ** Python values and call outcomes *)

(** A value of the ownership dict: the initial board stores the cell number
    itself ([{1: 1, ...}]), a played cell stores the mark of its owner. *)
Inductive pyval : Type :=
  | PInt (z : Z)
  | PStr (s : string).

#[global] Instance pyval_eq_dec : EqDecision pyval.
Proof. solve_decision. Defined.

(** The built-in exceptions the modelled code can raise. *)
Inductive exn : Type :=
  | ValueError
  | KeyError
  | IndexError.

(** Outcome of calling a Python function. *)
Inductive result (A : Type) : Type :=
  | Returns (a : A)
  | Raises (e : exn).

Arguments Returns {A} a.
Arguments Raises {A} e.

Definition bind {A B : Type} (r : result A) (k : A → result B) : result B :=
  match r with
  | Returns a => k a
  | Raises e => Raises e
  end.

(** ** TicTacToeState and TicTacToeGame *)

Record TicTacToeState : Type := mkState {
  cells_owned : gmap Z pyval;
  cells_unowned : list Z;
  current_player : string
}.

Record TicTacToeGame : Type := mkGame {
  x_first : bool;
  current_state : TicTacToeState
}.

(** [tictactoe.current_state = state]. *)
Definition set_current_state (g : TicTacToeGame) (s : TicTacToeState) : TicTacToeGame :=
  mkGame (x_first g) s.

(** [copy_dict]: a new dict filled key by key. *)
Definition copy_dict (d : gmap Z pyval) : gmap Z pyval :=
  map_fold (λ key v new_dict, <[key := v]> new_dict) ∅ d.

(** [TicTacToeGame.winning_combo]. *)
Definition winning_combo : list (list Z) :=
  [[1; 2; 3]; [4; 5; 6]; [7; 8; 9];
   [1; 4; 7]; [2; 5; 8]; [3; 6; 9];
   [1; 5; 9]; [3; 5; 7]].

(** [cell in l] on a list of ints. *)
Definition mem (cell : Z) (l : list Z) : bool :=
  bool_decide (cell ∈ l).

(** [TicTacToeGame.__init__]. *)
Definition new_game (x_first : bool) : TicTacToeGame :=
  let player := if x_first then "X"%string else "O"%string in
  mkGame x_first
    (mkState
       (list_to_map [(1, PInt 1); (2, PInt 2); (3, PInt 3);
                     (4, PInt 4); (5, PInt 5); (6, PInt 6);
                     (7, PInt 7); (8, PInt 8); (9, PInt 9)])
       [1; 2; 3; 4; 5; 6; 7; 8; 9]
       player).

Definition initial_state (x_first : bool) : TicTacToeState :=
  current_state (new_game x_first).

(** The keys the dict maps to the mark [player]: what the loops of
    [is_over] and [is_winner] collect.  Their order is the dict's; the code
    only tests membership in the collected list. *)
Definition cells_of (player : string) (owned : gmap Z pyval) : list Z :=
  (map_to_list (filter (λ kv, kv.2 = PStr player) owned)).*1.

(** [any([all([cell in cells for cell in combo]) for combo in winning_combo])]. *)
Definition has_combo (cells : list Z) : bool :=
  existsb (λ combo, forallb (λ cell, mem cell cells) combo) winning_combo.

(** [TicTacToeGame.is_over]. *)
Definition is_over (g : TicTacToeGame) : bool :=
  if (length (cells_unowned (current_state g)) =? 0)%nat then true
  else
    (* player_to_cells = {'X': [...], 'O': [...]}, visited in that order *)
    let owned := cells_owned (current_state g) in
    if has_combo (cells_of "X" owned) then true
    else if has_combo (cells_of "O" owned) then true
    else false.

(** [TicTacToeGame.is_winner]. *)
Definition is_winner (g : TicTacToeGame) (player : string) : bool :=
  has_combo (cells_of player (cells_owned (current_state g))).

(** [TicTacToeState.get_possible_moves]. *)
Definition get_possible_moves (s : TicTacToeState) : list Z :=
  let game_check := set_current_state (new_game true) s in
  if is_over game_check then [] else cells_unowned s.

(** [TicTacToeState.is_valid_move], for a move that is an int. *)
Definition is_valid_move (s : TicTacToeState) (move : Z) : bool :=
  mem move (get_possible_moves s).

(** [TicTacToeState.make_move]. *)
Definition make_move (s : TicTacToeState) (move : Z) : TicTacToeState :=
  let new_cells_unowned :=
    filter (λ cell, cell ≠ move) (cells_unowned s) in
  let new_cells_owned :=
    <[move := PStr (current_player s)]> (copy_dict (cells_owned s)) in
  let new_player :=
    if String.eqb (current_player s) "X" then "O"%string else "X"%string in
  mkState new_cells_owned new_cells_unowned new_player.

(** A call of [make_move]: its body has no [raise], and each step (the
    list comprehension, [copy_dict], the item assignment, the conditional
    expression) is defined on every state and int, so the call returns. *)
Definition make_move_outcome (s : TicTacToeState) (move : Z) : result TicTacToeState :=
  Returns (make_move s move).

(** [extract_winner]. *)
Definition extract_winner (s : TicTacToeState) : string :=
  let tictactoe := set_current_state (new_game true) s in
  if is_winner tictactoe "O" then "O"%string
  else if is_winner tictactoe "X" then "X"%string
  else "No one"%string.

(** ** Minimax *)

(** [max] of a non-empty list of ints. *)
Definition max_of (x : Z) (xs : list Z) : Z := foldl Z.max x xs.

(** Python's [max] on a list of ints: [ValueError] on the empty one. *)
Definition py_max (l : list Z) : result Z :=
  match l with
  | [] => Raises ValueError
  | x :: xs => Returns (max_of x xs)
  end.

(** The terminal branch of [score_state_rec]. *)
Definition terminal_score (s : TicTacToeState) : Z :=
  let player := current_player s in
  let opponent := if String.eqb player "O" then "X"%string else "O"%string in
  let winner := extract_winner s in
  if String.eqb winner player then 1
  else if String.eqb winner opponent then -1
  else 0.

(** Every element of [l] through [f], [None] as soon as one call is. *)
Fixpoint map_opt {A B : Type} (f : A → option B) (l : list A) : option (list B) :=
  match l with
  | [] => Some []
  | a :: l' =>
      match f a with
      | None => None
      | Some b =>
          match map_opt f l' with
          | None => None
          | Some bs => Some (b :: bs)
          end
      end
  end.

(** [score_state_rec], the recursion depth bounded by [fuel]; [None] when
    the bound is reached.  The list of scores has one entry per move, so
    [max] is never called on an empty one. *)
Fixpoint score_state_fuel (fuel : nat) (s : TicTacToeState) : option Z :=
  match fuel with
  | O => None
  | S fuel' =>
      match get_possible_moves s with
      | [] => Some (terminal_score s)
      | next_move :: next_moves =>
          match map_opt (λ mv, Z.mul (-1) <$> score_state_fuel fuel' (make_move s mv))
                        (next_move :: next_moves) with
          | None => None
          | Some [] => None
          | Some (sc :: scores) => Some (max_of sc scores)
          end
      end
  end.

(** [score_state_rec]: each move removes a cell from [cells_unowned], so the
    depth never exceeds the number of unowned cells. *)
Definition score_state_rec (s : TicTacToeState) : Z :=
  default 0 (score_state_fuel (S (length (cells_unowned s))) s).

(** ** Bounds on the score, decided without the whole tree

    [score_at_most fuel s b] checks that every move leads to a child of
    score at least [-b]; [score_at_least fuel s b] looks for one move to a
    child of score at most [-b].  Both stop at the first move that settles
    the question. *)
Fixpoint all_moves (f : Z → bool) (moves : list Z) : bool :=
  match moves with
  | [] => true
  | mv :: rest => if f mv then all_moves f rest else false
  end.

Fixpoint some_move (f : Z → bool) (moves : list Z) : bool :=
  match moves with
  | [] => false
  | mv :: rest => if f mv then true else some_move f rest
  end.

Fixpoint score_at_most (fuel : nat) (s : TicTacToeState) (b : Z) : bool :=
  match fuel with
  | O => false
  | S fuel' =>
      match get_possible_moves s with
      | [] => terminal_score s <=? b
      | mv :: rest =>
          all_moves (λ mv, score_at_least fuel' (make_move s mv) (- b)) (mv :: rest)
      end
  end
with score_at_least (fuel : nat) (s : TicTacToeState) (b : Z) : bool :=
  match fuel with
  | O => false
  | S fuel' =>
      match get_possible_moves s with
      | [] => b <=? terminal_score s
      | mv :: rest =>
          some_move (λ mv, score_at_most fuel' (make_move s mv) (- b)) (mv :: rest)
      end
  end.

(** ** Best moves *)

(** The key a move is filed under in [get_best_moves_rec]. *)
Definition negated_child_score (s : TicTacToeState) (move : Z) : Z :=
  -1 * score_state_rec (make_move s move).

(** One turn of the loop of [get_best_moves_rec]: the move joins the list
    kept under its negated child score. *)
Definition group_move (s : TicTacToeState) (score_to_move : gmap Z (list Z))
    (move : Z) : gmap Z (list Z) :=
  let next_state := make_move s move in
  match score_to_move !! (-1 * score_state_rec next_state) with
  | None => <[-1 * score_state_rec next_state := [move]]> score_to_move
  | Some moves =>
      <[-1 * score_state_rec next_state := moves ++ [move]]> score_to_move
  end.

(** [get_best_moves_rec]: [max] over the keys of an empty dict raises. *)
Definition get_best_moves_rec (s : TicTacToeState) : result (list Z) :=
  let moves := get_possible_moves s in
  let score_to_move := foldl (group_move s) ∅ moves in
  bind (py_max (map_to_list score_to_move).*1) (λ best,
    match score_to_move !! best with
    | Some best_moves => Returns best_moves
    | None => Raises KeyError
    end).

(** [l[i]] on a Python list. *)
Definition py_index (l : list Z) (i : Z) : result Z :=
  let n := Z.of_nat (length l) in
  let j := if i <? 0 then i + n else i in
  if (0 <=? j) && (j <? n) then
    match l !! Z.to_nat j with
    | Some x => Returns x
    | None => Raises IndexError
    end
  else Raises IndexError.

(** [recursive_minimax]; [randint] stands for [random.randint]. *)
Definition recursive_minimax (randint : Z → Z → Z) (game : TicTacToeGame) : result Z :=
  let state := current_state game in
  bind (get_best_moves_rec state) (λ best_moves,
    py_index best_moves (randint 0 (Z.of_nat (length best_moves) - 1))).

(** ** Vocabulary of the specification *)

Definition all_cells : list Z := [1; 2; 3; 4; 5; 6; 7; 8; 9].

Definition is_mark (p : string) : Prop := p = "X"%string ∨ p = "O"%string.

Definition other_mark (p : string) : string :=
  if String.eqb p "X" then "O"%string else "X"%string.

(** The cell carries the mark [p]. *)
Definition owned_by (s : TicTacToeState) (p : string) (cell : Z) : Prop :=
  cells_owned s !! cell = Some (PStr p).

Definition owned (s : TicTacToeState) (cell : Z) : Prop :=
  owned_by s "X" cell ∨ owned_by s "O" cell.

(** The cells carrying a mark. *)
Definition owned_cells (s : TicTacToeState) : gset Z :=
  dom (filter (λ kv, kv.2 = PStr "X" ∨ kv.2 = PStr "O") (cells_owned s)).

(** [cells] and the owned cells split the nine cells. *)
Definition splits_board (cells : list Z) (s : TicTacToeState) : Prop :=
  list_to_set cells ∪ owned_cells s = (list_to_set all_cells : gset Z) ∧
  (list_to_set cells : gset Z) ## owned_cells s.

(** Some winning line carries the mark [p] on its three cells. *)
Definition has_line (s : TicTacToeState) (p : string) : Prop :=
  ∃ combo, combo ∈ winning_combo ∧ ∀ cell, cell ∈ combo → owned_by s p cell.

(** States the game can be in: a new game, then valid moves. *)
Inductive reachable : TicTacToeState → Prop :=
  | reachable_new (x_first : bool) : reachable (initial_state x_first)
  | reachable_move (s : TicTacToeState) (move : Z) :
      reachable s → is_valid_move s move = true → reachable (make_move s move).

(** What every reachable state satisfies. *)
Record state_inv (s : TicTacToeState) : Prop := mkInv {
  inv_player : is_mark (current_player s);
  inv_split : splits_board (cells_unowned s) s;
  inv_order : cells_unowned s `sublist_of` all_cells
}.

(** [z] is the greatest element of [l]. *)
Definition is_max_of (z : Z) (l : list Z) : Prop :=
  z ∈ l ∧ ∀ y, y ∈ l → y ≤ z.

(** [min] of a non-empty list of ints. *)
Definition min_of (x : Z) (xs : list Z) : Z := foldl Z.min x xs.

(** The state after a sequence of moves. *)
Definition play (s : TicTacToeState) (moves : list Z) : TicTacToeState :=
  foldl make_move s moves.

(** Every move of the sequence is valid where it is made. *)
Fixpoint legal_play (s : TicTacToeState) (moves : list Z) : bool :=
  match moves with
  | [] => true
  | mv :: rest =>
      if is_valid_move s mv then legal_play (make_move s mv) rest else false
  end.

(** A new game, X first, after X 1. *)
Definition after_x1 : TicTacToeState := play (initial_state true) [1].

(** After X 1, O 4, X 2, O 5: X to move, two in a row each. *)
Definition x_to_win : TicTacToeState := play (initial_state true) [1; 4; 2; 5].

(** After X 1, O 4, X 2, O 5, X 3: the top row is X's, four cells unowned. *)
Definition x_has_won : TicTacToeState := play (initial_state true) [1; 4; 2; 5; 3].

(** The board [{1: a, 2: a, 4: b, 5: b}], [a] to move. *)
Definition two_in_a_row (a b : string) : TicTacToeState :=
  mkState
    (list_to_map [(1, PStr a); (2, PStr a); (3, PInt 3);
                  (4, PStr b); (5, PStr b); (6, PInt 6);
                  (7, PInt 7); (8, PInt 8); (9, PInt 9)])
    [3; 6; 7; 8; 9]
    a.

(** ** Objects and references

    [make_move] builds its result from a new list and a new dict.  To state
    that nothing the receiver refers to changes, states are also modelled
    as objects in a store: a state object refers to a dict object and a
    list object, and item assignment updates the dict object in place. *)

Inductive obj : Type :=
  | ODict (d : gmap Z pyval)
  | OList (l : list Z)
  | OState (owned_ref unowned_ref : nat) (player : string).

(** A new object, at an unused address. *)
Definition alloc (h : gmap nat obj) (o : obj) : gmap nat obj * nat :=
  let l := fresh (dom h) in (<[l := o]> h, l).

(** [d[key] = v], in place. *)
Definition dict_setitem (h : gmap nat obj) (d : nat) (key : Z) (v : pyval) : gmap nat obj :=
  match h !! d with
  | Some (ODict m) => <[d := ODict (<[key := v]> m)]> h
  | _ => h
  end.

(** [copy_dict] on the store; [None] when [d] is not a dict. *)
Definition copy_dict_heap (h : gmap nat obj) (d : nat) : option (gmap nat obj * nat) :=
  match h !! d with
  | Some (ODict m) =>
      let '(h1, new_dict) := alloc h (ODict ∅) in
      Some (map_fold (λ key v h', dict_setitem h' new_dict key v) h1 m, new_dict)
  | _ => None
  end.

(** [make_move] on the store; [None] when [self] is not a state object
    over a dict and a list. *)
Definition make_move_heap (h : gmap nat obj) (self : nat) (move : Z)
    : option (gmap nat obj * nat) :=
  match h !! self with
  | Some (OState owned_ref unowned_ref player) =>
      match h !! unowned_ref with
      | Some (OList cells) =>
          let '(h1, new_cells_unowned) :=
            alloc h (OList (filter (λ cell, cell ≠ move) cells)) in
          match copy_dict_heap h1 owned_ref with
          | Some (h2, new_cells_owned) =>
              let h3 := dict_setitem h2 new_cells_owned move (PStr player) in
              let new_player :=
                if String.eqb player "X" then "O"%string else "X"%string in
              Some (alloc h3 (OState new_cells_owned new_cells_unowned new_player))
          | None => None
          end
      | _ => None
      end
  | _ => None
  end.

(** [TicTacToeGame.__init__] on the store: the dict, the list and the
    state object of a new game. *)
Definition new_state_heap (h : gmap nat obj) (x_first : bool) : gmap nat obj * nat :=
  let player := if x_first then "X"%string else "O"%string in
  let '(h1, owned_ref) :=
    alloc h (ODict (list_to_map [(1, PInt 1); (2, PInt 2); (3, PInt 3);
                                 (4, PInt 4); (5, PInt 5); (6, PInt 6);
                                 (7, PInt 7); (8, PInt 8); (9, PInt 9)])) in
  let '(h2, unowned_ref) := alloc h1 (OList [1; 2; 3; 4; 5; 6; 7; 8; 9]) in
  alloc h2 (OState owned_ref unowned_ref player).

(** The state a state object stands for. *)
Definition state_at (h : gmap nat obj) (l : nat) : option TicTacToeState :=
  match h !! l with
  | Some (OState owned_ref unowned_ref player) =>
      match h !! owned_ref, h !! unowned_ref with
      | Some (ODict d), Some (OList cells) => Some (mkState d cells player)
      | _, _ => None
      end
  | _ => None
  end.

(** ** Rendering *)

(** [str(v)], as an f-string field formats it. *)
Definition py_str (v : pyval) : string :=
  match v with
  | PInt z => pretty z
  | PStr s => s
  end.

(** [d[key]]: [KeyError] on a missing key. *)
Definition dict_getitem (d : gmap Z pyval) (key : Z) : result pyval :=
  match d !! key with
  | Some v => Returns v
  | None => Raises KeyError
  end.

(** A line feed. *)
Definition nl : string := String (Ascii.ascii_of_nat 10) EmptyString.

Definition spaces (n : nat) : string :=
  Nat.iter n (String.append " ") EmptyString.

(** One line of three cells of the board. *)
Definition board_row (a b c : pyval) : string :=
  spaces 8 +:+ py_str a +:+ " | " +:+ py_str b +:+ " | " +:+ py_str c +:+ nl.

(** [TicTacToeState.__str__]: the nine fields are read in order, then the
    text is put together. *)
Definition state_str (s : TicTacToeState) : result string :=
  bind (dict_getitem (cells_owned s) 1) (λ c1,
  bind (dict_getitem (cells_owned s) 2) (λ c2,
  bind (dict_getitem (cells_owned s) 3) (λ c3,
  bind (dict_getitem (cells_owned s) 4) (λ c4,
  bind (dict_getitem (cells_owned s) 5) (λ c5,
  bind (dict_getitem (cells_owned s) 6) (λ c6,
  bind (dict_getitem (cells_owned s) 7) (λ c7,
  bind (dict_getitem (cells_owned s) 8) (λ c8,
  bind (dict_getitem (cells_owned s) 9) (λ c9,
    Returns (nl +:+ board_row c1 c2 c3
             +:+ spaces 8 +:+ "_________" +:+ nl
             +:+ spaces 29 +:+ nl
             +:+ board_row c4 c5 c6
             +:+ spaces 8 +:+ "_________" +:+ nl
             +:+ spaces 8 +:+ nl
             +:+ board_row c7 c8 c9
             +:+ spaces 8)))))))))).

(** ** Further vocabulary *)

(** The shape of the dict and the list of a state of the game: a cell of
    1..9 is either unowned and stored under its own number, or marked and
    not in the list; no other key; no cell twice in the list. *)
Record board_ok (s : TicTacToeState) : Prop := mkBoardOk {
  board_cells : ∀ cell, 1 ≤ cell ≤ 9 →
    (cells_owned s !! cell = Some (PInt cell) ∧ cell ∈ cells_unowned s) ∨
    (∃ p, is_mark p ∧ cells_owned s !! cell = Some (PStr p) ∧
          cell ∉ cells_unowned s);
  board_keys : ∀ cell, ¬ (1 ≤ cell ≤ 9) → cells_owned s !! cell = None;
  board_nodup : NoDup (cells_unowned s)
}.

(** The player to move can force a win, or cannot avoid a loss, whatever
    the replies. *)
Inductive forced_win : TicTacToeState → Prop :=
  | win_now (s : TicTacToeState) :
      get_possible_moves s = [] → extract_winner s = current_player s →
      forced_win s
  | win_move (s : TicTacToeState) (mv : Z) :
      mv ∈ get_possible_moves s → forced_loss (make_move s mv) →
      forced_win s
with forced_loss : TicTacToeState → Prop :=
  | loss_now (s : TicTacToeState) :
      get_possible_moves s = [] →
      extract_winner s = other_mark (current_player s) →
      forced_loss s
  | loss_all (s : TicTacToeState) :
      get_possible_moves s ≠ [] →
      (∀ mv, mv ∈ get_possible_moves s → forced_win (make_move s mv)) →
      forced_loss s.

(** The player [p] does not lose from [s] when [p]'s moves are taken from
    [get_best_moves_rec], whatever the other player does. *)
Inductive holds_out (p : string) : TicTacToeState → Prop :=
  | holds_end (s : TicTacToeState) :
      get_possible_moves s = [] → extract_winner s ≠ other_mark p →
      holds_out p s
  | holds_own (s : TicTacToeState) :
      get_possible_moves s ≠ [] → current_player s = p →
      (∀ best_moves mv, get_best_moves_rec s = Returns best_moves →
         mv ∈ best_moves → holds_out p (make_move s mv)) →
      holds_out p s
  | holds_reply (s : TicTacToeState) :
      get_possible_moves s ≠ [] → current_player s ≠ p →
      (∀ mv, mv ∈ get_possible_moves s → holds_out p (make_move s mv)) →
      holds_out p s.

(** ** Basic facts about the model *)

Lemma copy_dict_id (d : gmap Z pyval) : copy_dict d = d.
Proof.
  unfold copy_dict.
  apply (map_fold_weak_ind (λ r m, r = m)); [done|].
  intros i x m r _ ->. done.
Qed.

Lemma mem_true (cell : Z) (l : list Z) : mem cell l = true ↔ cell ∈ l.
Proof. unfold mem. apply bool_decide_eq_true. Qed.

Lemma mem_false (cell : Z) (l : list Z) : mem cell l = false ↔ cell ∉ l.
Proof. unfold mem. apply bool_decide_eq_false. Qed.

Section max_of.

Lemma max_of_cons (x y : Z) (xs : list Z) :
  max_of x (y :: xs) = max_of (Z.max x y) xs.
Proof. reflexivity. Qed.

Lemma max_of_init_le (x : Z) (xs : list Z) : x ≤ max_of x xs.
Proof.
  revert x. induction xs as [|y xs IH]; intros x; [simpl; lia|].
  rewrite max_of_cons. specialize (IH (Z.max x y)). lia.
Qed.

Lemma max_of_upper (x : Z) (xs : list Z) (y : Z) :
  y ∈ x :: xs → y ≤ max_of x xs.
Proof.
  revert x. induction xs as [|a xs IH]; intros x Hy.
  - apply list_elem_of_singleton in Hy as ->. simpl. lia.
  - rewrite max_of_cons.
    apply elem_of_cons in Hy as [->|Hy].
    + pose proof (max_of_init_le (Z.max x a) xs). lia.
    + apply elem_of_cons in Hy as [->|Hy].
      * pose proof (max_of_init_le (Z.max x a) xs). lia.
      * apply IH. set_solver.
Qed.

Lemma max_of_elem (x : Z) (xs : list Z) : max_of x xs ∈ x :: xs.
Proof.
  revert x. induction xs as [|a xs IH]; intros x; [set_solver|].
  rewrite max_of_cons. specialize (IH (Z.max x a)).
  apply elem_of_cons in IH as [IH|IH].
  - rewrite IH. destruct (Z.max_spec x a) as [[_ ->]|[_ ->]]; set_solver.
  - set_solver.
Qed.

Lemma max_of_le (x : Z) (xs : list Z) (b : Z) :
  max_of x xs ≤ b ↔ ∀ y, y ∈ x :: xs → y ≤ b.
Proof.
  split.
  - intros H y Hy. pose proof (max_of_upper x xs y Hy). lia.
  - intros H. apply H, max_of_elem.
Qed.

Lemma max_of_ge (x : Z) (xs : list Z) (b : Z) :
  b ≤ max_of x xs ↔ ∃ y, y ∈ x :: xs ∧ b ≤ y.
Proof.
  split.
  - intros H. exists (max_of x xs). split; [apply max_of_elem|done].
  - intros (y & Hy & Hb). pose proof (max_of_upper x xs y Hy). lia.
Qed.

End max_of.

Lemma map_opt_Some {A B : Type} (f : A → option B) (g : A → B) (l : list A) :
  (∀ a, a ∈ l → f a = Some (g a)) → map_opt f l = Some (g <$> l).
Proof.
  induction l as [|a l IH]; intros H; [done|].
  simpl. rewrite (H a) by set_solver. rewrite IH by set_solver. done.
Qed.

Lemma map_opt_is_Some {A B : Type} (f : A → option B) (l : list A) :
  (∀ a, a ∈ l → is_Some (f a)) → is_Some (map_opt f l).
Proof.
  induction l as [|a l IH]; intros H; [by eexists|].
  simpl. destruct (H a) as [b ->]; [set_solver|].
  destruct IH as [bs ->]; [set_solver|]. by eexists.
Qed.

Lemma map_opt_mono {A B : Type} (f g : A → option B) (l : list A) (bs : list B) :
  (∀ a b, a ∈ l → f a = Some b → g a = Some b) →
  map_opt f l = Some bs → map_opt g l = Some bs.
Proof.
  revert bs. induction l as [|a l IH]; intros bs H; [done|].
  simpl. destruct (f a) as [b|] eqn:Hfa; [|done].
  destruct (map_opt f l) as [bs'|] eqn:Hfl; [|done].
  intros [= <-]. rewrite (H a b) by (done || set_solver).
  rewrite (IH bs') by (done || set_solver). done.
Qed.

Lemma map_opt_length {A B : Type} (f : A → option B) (l : list A) (bs : list B) :
  map_opt f l = Some bs → length bs = length l.
Proof.
  revert bs. induction l as [|a l IH]; intros bs; simpl.
  - by intros [= <-].
  - destruct (f a); [|done]. destruct (map_opt f l); [|done].
    intros [= <-]. simpl. f_equal. by apply IH.
Qed.

(** ** Moves and termination of the search *)

Lemma get_possible_moves_unowned (s : TicTacToeState) (mv : Z) :
  mv ∈ get_possible_moves s → mv ∈ cells_unowned s.
Proof.
  unfold get_possible_moves. destruct (is_over _); [|done].
  intros H. by apply elem_of_nil in H.
Qed.

Lemma make_move_unowned_lt (s : TicTacToeState) (mv : Z) :
  mv ∈ cells_unowned s →
  (length (cells_unowned (make_move s mv)) < length (cells_unowned s))%nat.
Proof.
  intros H. simpl. apply (length_filter_lt _ _ mv); [done|]. intros Hne. by apply Hne.
Qed.

Lemma score_state_fuel_S (fuel : nat) (s : TicTacToeState) :
  score_state_fuel (S fuel) s =
    match get_possible_moves s with
    | [] => Some (terminal_score s)
    | next_move :: next_moves =>
        match map_opt (λ mv, Z.mul (-1) <$> score_state_fuel fuel (make_move s mv))
                      (next_move :: next_moves) with
        | None => None
        | Some [] => None
        | Some (sc :: scores) => Some (max_of sc scores)
        end
    end.
Proof. reflexivity. Qed.

Lemma score_state_fuel_total (fuel : nat) (s : TicTacToeState) :
  (length (cells_unowned s) < fuel)%nat → is_Some (score_state_fuel fuel s).
Proof.
  revert s. induction fuel as [|fuel IH]; intros s Hlt; [lia|].
  rewrite score_state_fuel_S.
  destruct (get_possible_moves s) as [|mv rest] eqn:Hmoves; [by eexists|].
  destruct (map_opt_is_Some
    (λ mv, Z.mul (-1) <$> score_state_fuel fuel (make_move s mv)) (mv :: rest))
    as [bs Hbs].
  { intros a Ha. rewrite <- Hmoves in Ha.
    apply get_possible_moves_unowned, make_move_unowned_lt in Ha.
    destruct (IH (make_move s a)) as [z ->]; [lia|]. by eexists. }
  rewrite Hbs. apply map_opt_length in Hbs.
  destruct bs; [done|]. by eexists.
Qed.

Lemma score_state_fuel_mono (fuel fuel' : nat) (s : TicTacToeState) (z : Z) :
  (fuel ≤ fuel')%nat →
  score_state_fuel fuel s = Some z → score_state_fuel fuel' s = Some z.
Proof.
  revert fuel' s z. induction fuel as [|fuel IH]; intros fuel' s z Hle; [done|].
  destruct fuel' as [|fuel']; [lia|]. rewrite !score_state_fuel_S.
  destruct (get_possible_moves s) as [|mv rest]; [done|].
  destruct (map_opt _ (mv :: rest)) as [bs|] eqn:Hbs; [|done].
  intros Hz.
  rewrite (map_opt_mono
    (λ mv, Z.mul (-1) <$> score_state_fuel fuel (make_move s mv))
    (λ mv, Z.mul (-1) <$> score_state_fuel fuel' (make_move s mv)) _ bs); [done| |done].
  intros a b _ Hab.
  destruct (score_state_fuel fuel (make_move s a)) as [za|] eqn:Hza; [|done].
  rewrite (IH fuel' _ za) by (done || lia). done.
Qed.

(** Any bound above the number of unowned cells gives the score. *)
Lemma score_state_fuel_enough (fuel : nat) (s : TicTacToeState) :
  (length (cells_unowned s) < fuel)%nat →
  score_state_fuel fuel s = Some (score_state_rec s).
Proof.
  intros Hlt. unfold score_state_rec.
  destruct (score_state_fuel_total (S (length (cells_unowned s))) s) as [z Hz]; [lia|].
  rewrite Hz. simpl. apply (score_state_fuel_mono (S (length (cells_unowned s)))); [lia|done].
Qed.

(** The defining equation of [score_state_rec]. *)
Lemma score_state_rec_unfold (s : TicTacToeState) :
  score_state_rec s =
    match get_possible_moves s with
    | [] => terminal_score s
    | next_move :: next_moves =>
        max_of (-1 * score_state_rec (make_move s next_move))
               ((λ mv, -1 * score_state_rec (make_move s mv)) <$> next_moves)
    end.
Proof.
  unfold score_state_rec at 1. rewrite score_state_fuel_S.
  destruct (get_possible_moves s) as [|mv rest] eqn:Hmoves; [done|].
  rewrite (map_opt_Some _ (λ mv, -1 * score_state_rec (make_move s mv))); [done|].
  intros a Ha. rewrite <- Hmoves in Ha.
  apply get_possible_moves_unowned, make_move_unowned_lt in Ha.
  rewrite score_state_fuel_enough by lia. done.
Qed.

(** ** Soundness of the bound checks *)

Lemma all_moves_true (f : Z → bool) (moves : list Z) :
  all_moves f moves = true ↔ ∀ mv, mv ∈ moves → f mv = true.
Proof.
  induction moves as [|a l IH]; simpl.
  - split; [|done]. intros _ mv Hmv. by apply elem_of_nil in Hmv.
  - destruct (f a) eqn:Hfa.
    + rewrite IH. split.
      * intros H mv Hmv. apply elem_of_cons in Hmv as [->|Hmv]; auto.
      * intros H mv Hmv. apply H. by right.
    + split; [done|]. intros H. rewrite <- Hfa. apply H. by left.
Qed.

Lemma some_move_true (f : Z → bool) (moves : list Z) :
  some_move f moves = true ↔ ∃ mv, mv ∈ moves ∧ f mv = true.
Proof.
  induction moves as [|a l IH]; simpl.
  - split; [done|]. intros (mv & Hmv & _). by apply elem_of_nil in Hmv.
  - destruct (f a) eqn:Hfa.
    + split; [|done]. intros _. exists a. split; [by left|done].
    + rewrite IH. split.
      * intros (mv & Hmv & H). exists mv. split; [by right|done].
      * intros (mv & Hmv & H).
        apply elem_of_cons in Hmv as [->|Hmv]; [congruence|eauto].
Qed.

Lemma score_at_most_S (fuel : nat) (s : TicTacToeState) (b : Z) :
  score_at_most (S fuel) s b =
    match get_possible_moves s with
    | [] => terminal_score s <=? b
    | mv :: rest =>
        all_moves (λ mv, score_at_least fuel (make_move s mv) (- b)) (mv :: rest)
    end.
Proof. reflexivity. Qed.

Lemma score_at_least_S (fuel : nat) (s : TicTacToeState) (b : Z) :
  score_at_least (S fuel) s b =
    match get_possible_moves s with
    | [] => b <=? terminal_score s
    | mv :: rest =>
        some_move (λ mv, score_at_most fuel (make_move s mv) (- b)) (mv :: rest)
    end.
Proof. reflexivity. Qed.

Lemma score_bounds_sound (fuel : nat) :
  ∀ (s : TicTacToeState) (b : Z),
    (score_at_most fuel s b = true → score_state_rec s ≤ b) ∧
    (score_at_least fuel s b = true → b ≤ score_state_rec s).
Proof.
  induction fuel as [|fuel IH]; intros s b; [done|].
  rewrite score_state_rec_unfold, score_at_most_S, score_at_least_S.
  destruct (get_possible_moves s) as [|mv rest].
  - split; intros H; [apply Z.leb_le in H|apply Z.leb_le in H]; done.
  - change (-1 * score_state_rec (make_move s mv) ::
            ((λ mv, -1 * score_state_rec (make_move s mv)) <$> rest))
      with ((λ mv, -1 * score_state_rec (make_move s mv)) <$> (mv :: rest)).
    split; intros H.
    + apply max_of_le. intros y Hy.
      change (-1 * score_state_rec (make_move s mv) ::
              ((λ mv, -1 * score_state_rec (make_move s mv)) <$> rest))
        with ((λ mv, -1 * score_state_rec (make_move s mv)) <$> (mv :: rest)) in Hy.
      apply list_elem_of_fmap in Hy as (a & -> & Ha).
      rewrite all_moves_true in H.
      apply H, IH in Ha. lia.
    + apply max_of_ge.
      apply some_move_true in H as (a & Ha & Hle).
      apply IH in Hle.
      exists (-1 * score_state_rec (make_move s a)). split; [|lia].
      change (-1 * score_state_rec (make_move s mv) ::
              ((λ mv, -1 * score_state_rec (make_move s mv)) <$> rest))
        with ((λ mv, -1 * score_state_rec (make_move s mv)) <$> (mv :: rest)).
      apply list_elem_of_fmap. eauto.
Qed.

Lemma score_state_rec_pinned (fuel : nat) (s : TicTacToeState) (z : Z) :
  score_at_most fuel s z = true → score_at_least fuel s z = true →
  score_state_rec s = z.
Proof.
  intros Hle Hge.
  apply (score_bounds_sound fuel s z) in Hle.
  apply (score_bounds_sound fuel s z) in Hge. lia.
Qed.


(** ** Lines and termination *)

Lemma elem_of_cells_of (p : string) (d : gmap Z pyval) (cell : Z) :
  cell ∈ cells_of p d ↔ d !! cell = Some (PStr p).
Proof.
  unfold cells_of. rewrite list_elem_of_fmap. split.
  - intros ([k v] & -> & Hkv). apply elem_of_map_to_list in Hkv.
    apply map_lookup_filter_Some in Hkv as [Hkv Hv]. simpl in *. by subst v.
  - intros H. exists (cell, PStr p). split; [done|].
    apply elem_of_map_to_list, map_lookup_filter_Some. done.
Qed.

Lemma has_combo_true (cells : list Z) :
  has_combo cells = true ↔
  ∃ combo, combo ∈ winning_combo ∧ ∀ cell, cell ∈ combo → cell ∈ cells.
Proof.
  unfold has_combo. rewrite existsb_exists. split.
  - intros (combo & Hin & Hall). exists combo. split; [by apply list_elem_of_In|].
    intros cell Hcell. rewrite forallb_forall in Hall.
    apply mem_true, Hall, list_elem_of_In, Hcell.
  - intros (combo & Hin & Hall). exists combo. split; [by apply list_elem_of_In|].
    apply forallb_forall. intros cell Hcell.
    apply mem_true, Hall, list_elem_of_In, Hcell.
Qed.

Lemma is_winner_true (g : TicTacToeGame) (p : string) :
  is_winner g p = true ↔ has_line (current_state g) p.
Proof.
  unfold is_winner, has_line, owned_by. rewrite has_combo_true.
  split; intros (combo & Hin & Hall); exists combo; (split; [done|]);
    intros cell Hcell; apply elem_of_cells_of, Hall, Hcell.
Qed.

Lemma is_over_true (g : TicTacToeGame) :
  is_over g = true ↔
  cells_unowned (current_state g) = [] ∨
  has_line (current_state g) "X" ∨ has_line (current_state g) "O".
Proof.
  unfold is_over. rewrite <- !is_winner_true. unfold is_winner. cbv zeta.
  destruct (cells_unowned (current_state g)) as [|c cs]; [by split; auto|].
  cbn [length Nat.eqb].
  destruct (has_combo (cells_of "X" _)); [by split; auto|].
  destruct (has_combo (cells_of "O" _)); [by split; auto|].
  split; [done|]. intros [?|[?|?]]; done.
Qed.

Lemma get_possible_moves_nil (s : TicTacToeState) :
  get_possible_moves s = [] ↔
  is_over (set_current_state (new_game true) s) = true.
Proof.
  unfold get_possible_moves.
  destruct (is_over _) eqn:Hover; [done|]. split; [|done].
  intros Hnil. rewrite <- Hover. apply is_over_true. by left.
Qed.

(** ** The greatest element *)

Lemma is_max_of_max_of (x : Z) (xs : list Z) : is_max_of (max_of x xs) (x :: xs).
Proof. split; [apply max_of_elem|]. intros y Hy. by apply max_of_upper. Qed.

Lemma is_max_of_unique (z z' : Z) (l : list Z) :
  is_max_of z l → is_max_of z' l → z = z'.
Proof. intros [Hz Hub] [Hz' Hub']. apply Hub' in Hz. apply Hub in Hz'. lia. Qed.

Lemma score_state_rec_is_max (s : TicTacToeState) :
  get_possible_moves s ≠ [] →
  is_max_of (score_state_rec s)
    ((λ mv, -1 * score_state_rec (make_move s mv)) <$> get_possible_moves s).
Proof.
  intros Hne. rewrite score_state_rec_unfold.
  destruct (get_possible_moves s) as [|mv rest]; [done|].
  apply is_max_of_max_of.
Qed.

Lemma score_state_rec_terminal (s : TicTacToeState) :
  get_possible_moves s = [] → score_state_rec s = terminal_score s.
Proof. intros H. rewrite score_state_rec_unfold, H. done. Qed.

(** ** Claims about the scorer *)

(** C1.  The scorer returns on every state: any depth bound above the
    number of unowned cells gives [score_state_rec].  On a state with moves
    left, [score_state_rec] is the greatest of the negated scores of the
    children, one child per possible move.  On a state without moves, whose
    player to move is X or O, it is 1 when [extract_winner] names the
    player to move, -1 when it names the other player, and 0 when it names
    no one. *)
Theorem score_state_rec_negamax (s : TicTacToeState) :
  (∀ fuel, (length (cells_unowned s) < fuel)%nat →
     score_state_fuel fuel s = Some (score_state_rec s)) ∧
  (get_possible_moves s ≠ [] →
     is_max_of (score_state_rec s)
       ((λ mv, -1 * score_state_rec (make_move s mv)) <$> get_possible_moves s)) ∧
  (get_possible_moves s = [] → is_mark (current_player s) →
     (extract_winner s = current_player s → score_state_rec s = 1) ∧
     (extract_winner s = other_mark (current_player s) → score_state_rec s = -1) ∧
     (extract_winner s = "No one"%string → score_state_rec s = 0)).
Proof.
  split; [intros fuel; apply score_state_fuel_enough|].
  split; [apply score_state_rec_is_max|].
  intros Hterm Hmark. rewrite (score_state_rec_terminal s Hterm).
  unfold terminal_score, other_mark.
  destruct Hmark as [-> | ->]; simpl; repeat split; intros ->; reflexivity.
Qed.

Lemma score_state_rec_negamax_witness :
  score_state_fuel 6 x_to_win = Some (score_state_rec x_to_win) ∧
  is_max_of (score_state_rec (two_in_a_row "X" "O"))
    ((λ mv, -1 * score_state_rec (make_move (two_in_a_row "X" "O") mv))
       <$> get_possible_moves (two_in_a_row "X" "O")) ∧
  score_state_rec x_has_won = -1.
Proof.
  split; [|split].
  - destruct (score_state_rec_negamax x_to_win) as (Hfuel & _ & _).
    apply Hfuel. vm_compute. reflexivity.
  - destruct (score_state_rec_negamax (two_in_a_row "X" "O")) as (_ & Hmax & _).
    apply Hmax. vm_compute. discriminate.
  - destruct (score_state_rec_negamax x_has_won) as (_ & _ & Hterm).
    apply Hterm.
    + vm_compute. reflexivity.
    + right. vm_compute. reflexivity.
    + vm_compute. reflexivity.
Defined.

(** ** Reachable states *)

Lemma reachable_play (moves : list Z) (s : TicTacToeState) :
  reachable s → legal_play s moves = true → reachable (play s moves).
Proof.
  revert s. induction moves as [|mv rest IH]; intros s Hs Hlegal; [done|].
  simpl in *. destruct (is_valid_move s mv) eqn:Hmv; [|done].
  apply IH; [|done]. by constructor.
Qed.

Lemma after_x1_reachable : reachable after_x1.
Proof. apply reachable_play; [constructor|]. vm_compute. reflexivity. Qed.

Lemma x_to_win_reachable : reachable x_to_win.
Proof. apply reachable_play; [constructor|]. vm_compute. reflexivity. Qed.

Lemma x_has_won_reachable : reachable x_has_won.
Proof. apply reachable_play; [constructor|]. vm_compute. reflexivity. Qed.

Lemma is_valid_move_true (s : TicTacToeState) (mv : Z) :
  is_valid_move s mv = true ↔ mv ∈ get_possible_moves s.
Proof. apply mem_true. Qed.

Lemma elem_of_owned_cells (s : TicTacToeState) (cell : Z) :
  cell ∈ owned_cells s ↔ owned s cell.
Proof.
  unfold owned_cells, owned, owned_by. rewrite elem_of_dom. split.
  - intros [v Hv]. apply map_lookup_filter_Some in Hv as [Hv [Hx|Ho]];
      simpl in *; subst v; auto.
  - intros [H|H]; eexists; apply map_lookup_filter_Some; split; eauto;
      simpl; auto.
Qed.

Lemma owned_make_move (s : TicTacToeState) (mv cell : Z) :
  is_mark (current_player s) →
  owned (make_move s mv) cell ↔ cell = mv ∨ owned s cell.
Proof.
  intros Hmark. unfold owned, owned_by. simpl. rewrite copy_dict_id.
  destruct (decide (mv = cell)) as [->|Hne].
  - rewrite lookup_insert_eq. split; [auto|]. intros _.
    destruct Hmark as [-> | ->]; auto.
  - rewrite lookup_insert_ne by done. split; [auto|].
    intros [->|H]; [done|auto].
Qed.

Lemma splits_board_make_move (s : TicTacToeState) (mv : Z) :
  is_mark (current_player s) → mv ∈ cells_unowned s →
  splits_board (cells_unowned s) s →
  splits_board (cells_unowned (make_move s mv)) (make_move s mv).
Proof.
  intros Hmark Hmv [Hcover Hdisj].
  assert (Hown : ∀ cell, cell ∈ owned_cells (make_move s mv) ↔
                         cell = mv ∨ cell ∈ owned_cells s).
  { intros cell. rewrite !elem_of_owned_cells. by apply owned_make_move. }
  assert (Hun : ∀ cell, cell ∈ cells_unowned (make_move s mv) ↔
                        cell ≠ mv ∧ cell ∈ cells_unowned s).
  { intros cell. simpl. by rewrite list_elem_of_filter. }
  split.
  - apply set_eq. intros cell. rewrite <- Hcover.
    rewrite !elem_of_union, !elem_of_list_to_set, Hown, Hun.
    destruct (decide (cell = mv)) as [->|Hne]; tauto.
  - intros cell. rewrite elem_of_list_to_set, Hown, Hun.
    intros [Hne Hcell] [->|Ho]; [done|].
    apply (Hdisj cell); [by apply elem_of_list_to_set|done].
Qed.

Lemma state_inv_initial (x_first : bool) : state_inv (initial_state x_first).
Proof.
  split.
  - destruct x_first; [by left|by right].
  - destruct x_first; apply (bool_decide_unpack _); vm_compute; exact I.
  - destruct x_first; reflexivity.
Qed.

Lemma state_inv_make_move (s : TicTacToeState) (mv : Z) :
  state_inv s → mv ∈ cells_unowned s → state_inv (make_move s mv).
Proof.
  intros [Hmark Hsplit Hord] Hmv. split.
  - simpl. destruct (String.eqb _ _); [by right|by left].
  - by apply splits_board_make_move.
  - simpl. etrans; [apply sublist_filter|done].
Qed.

Lemma reachable_inv (s : TicTacToeState) : reachable s → state_inv s.
Proof.
  induction 1 as [x_first|s mv _ IH Hmv]; [apply state_inv_initial|].
  apply state_inv_make_move; [done|].
  by apply get_possible_moves_unowned, is_valid_move_true.
Qed.

(** The score is one of -1, 0, 1, on every state. *)
Lemma score_state_rec_range_aux (n : nat) (s : TicTacToeState) :
  (length (cells_unowned s) < n)%nat →
  score_state_rec s = -1 ∨ score_state_rec s = 0 ∨ score_state_rec s = 1.
Proof.
  revert s. induction n as [|n IH]; intros s Hlen; [lia|].
  rewrite score_state_rec_unfold.
  destruct (get_possible_moves s) as [|mv rest] eqn:Hmoves.
  - unfold terminal_score. repeat destruct (String.eqb _ _); auto.
  - pose proof (max_of_elem (-1 * score_state_rec (make_move s mv))
      ((λ mv, -1 * score_state_rec (make_move s mv)) <$> rest)) as Hin.
    change (-1 * score_state_rec (make_move s mv) ::
            ((λ mv, -1 * score_state_rec (make_move s mv)) <$> rest))
      with ((λ mv, -1 * score_state_rec (make_move s mv)) <$> (mv :: rest)) in Hin.
    apply list_elem_of_fmap in Hin as (a & -> & Ha).
    rewrite <- Hmoves in Ha.
    apply get_possible_moves_unowned, make_move_unowned_lt in Ha.
    destruct (IH (make_move s a)) as [H|[H|H]]; [lia|rewrite H; auto..].
Qed.

Lemma score_state_rec_range (s : TicTacToeState) :
  score_state_rec s = -1 ∨ score_state_rec s = 0 ∨ score_state_rec s = 1.
Proof. apply (score_state_rec_range_aux (S (length (cells_unowned s)))). lia. Qed.

Lemma max_of_neg_min_of (x : Z) (xs : list Z) :
  max_of (-1 * x) (Z.mul (-1) <$> xs) = -1 * min_of x xs.
Proof.
  revert x. induction xs as [|y ys IH]; intros x; [done|].
  rewrite fmap_cons, max_of_cons. unfold min_of. simpl. fold (min_of (Z.min x y) ys).
  rewrite <- IH. f_equal. lia.
Qed.

(** C2 (amended).  On every reachable state the score is -1, 0 or 1, and
    with moves left it is -1 times the least of the children's scores. *)
Theorem score_state_rec_reachable (s : TicTacToeState) :
  reachable s →
  (score_state_rec s = -1 ∨ score_state_rec s = 0 ∨ score_state_rec s = 1) ∧
  ∀ mv rest, get_possible_moves s = mv :: rest →
    score_state_rec s =
      -1 * min_of (score_state_rec (make_move s mv))
                  ((λ mv, score_state_rec (make_move s mv)) <$> rest).
Proof.
  intros _. split; [apply score_state_rec_range|].
  intros mv rest Hmoves. rewrite score_state_rec_unfold, Hmoves.
  rewrite <- max_of_neg_min_of. f_equal. rewrite <- list_fmap_compose. done.
Qed.

Lemma score_state_rec_reachable_witness :
  score_state_rec x_to_win =
    -1 * min_of (score_state_rec (make_move x_to_win 3))
           ((λ mv, score_state_rec (make_move x_to_win mv))
              <$> [6; 7; 8; 9]).
Proof.
  apply (score_state_rec_reachable x_to_win).
  - apply x_to_win_reachable.
  - vm_compute. reflexivity.
Defined.

(** C2, as stated, fails: after X 1, O 4, X 2, O 5 the score is 1, while
    -1 times the greatest of the children's scores is -1. *)
Lemma score_not_neg_max_of_children :
  reachable x_to_win ∧
  get_possible_moves x_to_win = [3; 6; 7; 8; 9] ∧
  score_state_rec x_to_win = 1 ∧
  -1 * max_of (score_state_rec (make_move x_to_win 3))
         ((λ mv, score_state_rec (make_move x_to_win mv)) <$> [6; 7; 8; 9]) = -1 ∧
  score_state_rec x_to_win ≠
    -1 * max_of (score_state_rec (make_move x_to_win 3))
           ((λ mv, score_state_rec (make_move x_to_win mv)) <$> [6; 7; 8; 9]).
Proof.
  split; [|split; [|split; [|split]]].
  - apply x_to_win_reachable.
  - vm_compute. reflexivity.
  - vm_compute. reflexivity.
  - vm_compute. reflexivity.
  - vm_compute. discriminate.
Qed.

(** C3.  The score of the state of a new game, whoever moves first, is 0. *)
Theorem score_initial_state (x_first : bool) :
  score_state_rec (current_state (new_game x_first)) = 0.
Proof.
  apply (score_state_rec_pinned 10); destruct x_first;
    vm_cast_no_check (eq_refl true).
Qed.

(** ** The grouping loop of [get_best_moves_rec] *)

Section best_moves.

Variable s : TicTacToeState.

Local Abbreviation key := (negated_child_score s).

Lemma group_move_lookup (acc : gmap Z (list Z)) (mv k : Z) :
  group_move s acc mv !! k =
    if decide (key mv = k) then Some (default [] (acc !! k) ++ [mv])
    else acc !! k.
Proof.
  unfold group_move. fold (key mv).
  destruct (acc !! key mv) as [l|] eqn:Hacc; case_decide as Hk.
  - subst k. by rewrite lookup_insert_eq, Hacc.
  - by rewrite lookup_insert_ne.
  - subst k. by rewrite lookup_insert_eq, Hacc.
  - by rewrite lookup_insert_ne.
Qed.

Lemma foldl_group_move_lookup (moves : list Z) (acc : gmap Z (list Z)) (k : Z) :
  foldl (group_move s) acc moves !! k =
    match filter (λ mv, key mv = k) moves with
    | [] => acc !! k
    | mv :: l => Some (default [] (acc !! k) ++ mv :: l)
    end.
Proof.
  revert acc. induction moves as [|m rest IH]; intros acc; [done|].
  simpl foldl. rewrite IH, group_move_lookup, filter_cons.
  case_decide as Hk.
  - simpl. destruct (filter _ rest) as [|m' l]; [done|].
    by rewrite <- app_assoc.
  - done.
Qed.

Lemma score_to_move_lookup (moves : list Z) (k : Z) :
  foldl (group_move s) ∅ moves !! k =
    match filter (λ mv, key mv = k) moves with
    | [] => None
    | mv :: l => Some (mv :: l)
    end.
Proof. by rewrite foldl_group_move_lookup, lookup_empty. Qed.

Lemma score_to_move_keys (moves : list Z) (k : Z) :
  k ∈ (map_to_list (foldl (group_move s) ∅ moves)).*1 ↔ k ∈ key <$> moves.
Proof.
  rewrite list_elem_of_fmap. split.
  - intros ([k' l] & -> & Hin). apply elem_of_map_to_list in Hin.
    rewrite score_to_move_lookup in Hin. simpl in *.
    destruct (filter _ moves) as [|mv l'] eqn:Hf; [done|].
    assert (Hmv : mv ∈ filter (λ mv, key mv = k') moves) by (rewrite Hf; by left).
    apply list_elem_of_filter in Hmv as [<- Hmv].
    apply list_elem_of_fmap. eauto.
  - intros (mv & -> & Hmv)%list_elem_of_fmap.
    assert (Hf : mv ∈ filter (λ mv', key mv' = key mv) moves)
      by (by apply list_elem_of_filter).
    destruct (filter _ moves) as [|mv0 l] eqn:Heq; [by apply elem_of_nil in Hf|].
    exists (key mv, mv0 :: l). split; [done|].
    apply elem_of_map_to_list. by rewrite score_to_move_lookup, Heq.
Qed.

Lemma get_best_moves_rec_returns :
  get_possible_moves s ≠ [] →
  ∃ best, is_max_of best (key <$> get_possible_moves s) ∧
          get_best_moves_rec s =
            Returns (filter (λ mv, key mv = best) (get_possible_moves s)).
Proof.
  intros Hne. unfold get_best_moves_rec. cbv zeta.
  set (moves := get_possible_moves s) in *.
  pose proof (score_to_move_keys moves) as Hkeys.
  destruct ((map_to_list (foldl (group_move s) ∅ moves)).*1) as [|k ks] eqn:Hks.
  { destruct moves as [|mv rest]; [done|].
    specialize (Hkeys (key mv)). destruct Hkeys as [_ Hkeys].
    exfalso. eapply elem_of_nil, Hkeys. rewrite fmap_cons. by left. }
  simpl. exists (max_of k ks).
  destruct (is_max_of_max_of k ks) as [Hin Hub].
  assert (Hmax : is_max_of (max_of k ks) (key <$> moves)).
  { split; [by apply Hkeys|]. intros y Hy. by apply Hub, Hkeys. }
  split; [done|].
  rewrite score_to_move_lookup.
  destruct Hmax as [(mv & Hmv & Hmvin)%list_elem_of_fmap _].
  assert (Hf : mv ∈ filter (λ mv', key mv' = max_of k ks) moves)
    by (by apply list_elem_of_filter).
  destruct (filter _ moves) as [|mv0 l]; [by apply elem_of_nil in Hf|done].
Qed.

Lemma get_best_moves_rec_raises :
  get_possible_moves s = [] → get_best_moves_rec s = Raises ValueError.
Proof. intros H. unfold get_best_moves_rec. rewrite H. reflexivity. Qed.

End best_moves.

Lemma py_index_in_range (l : list Z) (i : Z) :
  0 ≤ i ≤ Z.of_nat (length l) - 1 → ∃ x, py_index l i = Returns x ∧ x ∈ l.
Proof.
  intros Hi. unfold py_index. cbv zeta.
  destruct (i <? 0) eqn:Hneg; [apply Z.ltb_lt in Hneg; lia|].
  destruct (0 <=? i) eqn:H0; [|apply Z.leb_gt in H0; lia].
  destruct (i <? Z.of_nat (length l)) eqn:Hlt; [|apply Z.ltb_ge in Hlt; lia].
  simpl. destruct (lookup_lt_is_Some_2 l (Z.to_nat i)) as [x Hx]; [lia|].
  rewrite Hx. exists x. split; [done|]. by eapply list_elem_of_lookup_2.
Qed.

(** C4.  On a state with moves left, [get_best_moves_rec] returns the
    possible moves whose negated child score is the greatest one, which is
    the score of the state, in the order of the possible moves; it takes no
    random number.  The draw is made by [recursive_minimax], which returns
    one of these moves. *)
Theorem get_best_moves_rec_spec (s : TicTacToeState) :
  get_possible_moves s ≠ [] →
  ∃ best best_moves,
    is_max_of best
      ((λ mv, -1 * score_state_rec (make_move s mv)) <$> get_possible_moves s) ∧
    best = score_state_rec s ∧
    get_best_moves_rec s = Returns best_moves ∧
    best_moves =
      filter (λ mv, -1 * score_state_rec (make_move s mv) = best)
             (get_possible_moves s) ∧
    (∀ mv, mv ∈ best_moves ↔
           mv ∈ get_possible_moves s ∧
           -1 * score_state_rec (make_move s mv) = best) ∧
    ∀ (randint : Z → Z → Z) (game : TicTacToeGame),
      current_state game = s →
      (∀ a b, a ≤ b → a ≤ randint a b ≤ b) →
      ∃ mv, recursive_minimax randint game = Returns mv ∧ mv ∈ best_moves.
Proof.
  intros Hne. destruct (get_best_moves_rec_returns s Hne) as (best & Hmax & Hret).
  exists best, (filter (λ mv, -1 * score_state_rec (make_move s mv) = best)
                       (get_possible_moves s)).
  split; [done|].
  split; [exact (is_max_of_unique _ _ _ Hmax (score_state_rec_is_max s Hne))|].
  split; [done|]. split; [done|]. split.
  - intros mv. rewrite list_elem_of_filter. tauto.
  - intros randint game <- Hrand. unfold recursive_minimax. cbv zeta.
    rewrite Hret. simpl. apply py_index_in_range.
    destruct Hmax as [(mv & Hmv & Hin)%list_elem_of_fmap _].
    assert (Hf : mv ∈ filter (λ mv', -1 * score_state_rec
                 (make_move (current_state game) mv') = best)
                 (get_possible_moves (current_state game)))
      by (by apply list_elem_of_filter).
    destruct (filter _ _) as [|m0 l0]; [by apply elem_of_nil in Hf|].
    apply Hrand. simpl. lia.
Qed.

Lemma get_best_moves_rec_spec_witness :
  ∃ best best_moves,
    is_max_of best
      ((λ mv, -1 * score_state_rec (make_move (initial_state true) mv))
         <$> get_possible_moves (initial_state true)) ∧
    best = score_state_rec (initial_state true) ∧
    get_best_moves_rec (initial_state true) = Returns best_moves ∧
    best_moves =
      filter (λ mv, -1 * score_state_rec (make_move (initial_state true) mv) = best)
             (get_possible_moves (initial_state true)) ∧
    (∀ mv, mv ∈ best_moves ↔
           mv ∈ get_possible_moves (initial_state true) ∧
           -1 * score_state_rec (make_move (initial_state true) mv) = best) ∧
    ∀ (randint : Z → Z → Z) (game : TicTacToeGame),
      current_state game = initial_state true →
      (∀ a b, a ≤ b → a ≤ randint a b ≤ b) →
      ∃ mv, recursive_minimax randint game = Returns mv ∧ mv ∈ best_moves.
Proof.
  apply (get_best_moves_rec_spec (initial_state true)).
  vm_compute. discriminate.
Defined.

(** C10.  On a state without possible moves [get_best_moves_rec] raises
    [ValueError], from [max] over its empty dict, and so does
    [recursive_minimax] whatever number is drawn. *)
Theorem get_best_moves_rec_terminal (s : TicTacToeState) :
  get_possible_moves s = [] →
  get_best_moves_rec s = Raises ValueError ∧
  ∀ (randint : Z → Z → Z) (game : TicTacToeGame),
    current_state game = s → recursive_minimax randint game = Raises ValueError.
Proof.
  intros Hterm. split; [by apply get_best_moves_rec_raises|].
  intros randint game <-. unfold recursive_minimax. cbv zeta.
  rewrite (get_best_moves_rec_raises _ Hterm). reflexivity.
Qed.

Lemma get_best_moves_rec_terminal_witness :
  get_best_moves_rec x_has_won = Raises ValueError ∧
  ∀ (randint : Z → Z → Z) (game : TicTacToeGame),
    current_state game = x_has_won →
    recursive_minimax randint game = Raises ValueError.
Proof.
  apply (get_best_moves_rec_terminal x_has_won).
  vm_compute. reflexivity.
Defined.

(** ** Possible moves *)

Lemma elem_of_all_cells (cell : Z) : cell ∈ all_cells ↔ 1 ≤ cell ≤ 9.
Proof.
  unfold all_cells. rewrite !elem_of_cons, elem_of_nil. lia.
Qed.

Lemma filter_ext_in (P Q : Z → Prop) `{!∀ x, Decision (P x)} `{!∀ x, Decision (Q x)}
    (l : list Z) :
  (∀ x, x ∈ l → P x ↔ Q x) → filter P l = filter Q l.
Proof.
  induction l as [|a l IH]; intros Hext; [done|].
  rewrite !filter_cons.
  assert (HPQ : P a ↔ Q a) by (apply Hext; by left).
  rewrite IH by (intros x Hx; apply Hext; by right).
  destruct (decide (P a)), (decide (Q a)); tauto || done.
Qed.

Lemma sublist_as_filter (l L : list Z) :
  NoDup L → l `sublist_of` L → l = filter (λ x, x ∈ l) L.
Proof.
  intros Hnd Hsub. induction Hsub as [|x l1 l2 Hsub IH|x l1 l2 Hsub IH].
  - done.
  - apply NoDup_cons in Hnd as [Hx Hnd].
    rewrite filter_cons_True by (by left). f_equal.
    rewrite (IH Hnd) at 1. apply filter_ext_in. intros y Hy.
    rewrite elem_of_cons. split; [auto|]. intros [->|?]; done.
  - apply NoDup_cons in Hnd as [Hx Hnd].
    rewrite filter_cons_False; [by apply IH|].
    intros Hin. apply Hx. by apply (sublist_subseteq _ _ Hsub).
Qed.

Lemma all_cells_NoDup : NoDup all_cells.
Proof. apply (bool_decide_unpack _). vm_compute. exact I. Qed.

Lemma state_inv_unowned (s : TicTacToeState) :
  state_inv s →
  cells_unowned s = filter (λ cell, cell ∉ owned_cells s) all_cells.
Proof.
  intros [_ [Hcover Hdisj] Hord].
  rewrite (sublist_as_filter _ _ all_cells_NoDup Hord) at 1.
  apply filter_ext_in. intros cell Hcell. split.
  - intros Hun Hown. apply (Hdisj cell); [by apply elem_of_list_to_set|done].
  - intros Hown.
    assert (Hin : cell ∈ (list_to_set all_cells : gset Z))
      by (by apply elem_of_list_to_set).
    rewrite <- Hcover in Hin. apply elem_of_union in Hin as [Hin|Hin]; [|done].
    by apply elem_of_list_to_set in Hin.
Qed.

(** C5.  [get_possible_moves] returns the list of unowned cells as it is
    when the game is not over, and the empty list exactly when no cell is
    unowned or X or O owns a winning line; a complete line empties it
    whatever cells remain unowned.  On a reachable state the list of
    unowned cells is the cells 1..9, in that order, that carry no mark. *)
Theorem get_possible_moves_spec (s : TicTacToeState) :
  (is_over (set_current_state (new_game true) s) = false →
     get_possible_moves s = cells_unowned s) ∧
  (get_possible_moves s = [] ↔
     cells_unowned s = [] ∨ has_line s "X" ∨ has_line s "O") ∧
  (is_over (set_current_state (new_game true) s) = true ↔
     get_possible_moves s = []) ∧
  (∀ p, is_mark p → has_line s p →
     get_possible_moves s = [] ∧
     is_over (set_current_state (new_game true) s) = true) ∧
  (reachable s → is_over (set_current_state (new_game true) s) = false →
     get_possible_moves s = filter (λ cell, cell ∉ owned_cells s) all_cells).
Proof.
  assert (Hnil : get_possible_moves s = [] ↔
                 cells_unowned s = [] ∨ has_line s "X" ∨ has_line s "O").
  { rewrite get_possible_moves_nil, is_over_true. done. }
  assert (Hnot : is_over (set_current_state (new_game true) s) = false →
                 get_possible_moves s = cells_unowned s).
  { intros H. unfold get_possible_moves. by rewrite H. }
  split; [done|]. split; [done|]. split; [|split].
  - symmetry. apply get_possible_moves_nil.
  - intros p Hp Hline.
    assert (H : get_possible_moves s = []).
    { apply Hnil. destruct Hp as [-> | ->]; auto. }
    split; [done|]. by apply get_possible_moves_nil.
  - intros Hreach Hover. rewrite (Hnot Hover).
    by apply state_inv_unowned, reachable_inv.
Qed.

Lemma get_possible_moves_spec_witness :
  (get_possible_moves x_has_won = [] ∧
   is_over (set_current_state (new_game true) x_has_won) = true) ∧
  get_possible_moves x_to_win =
    filter (λ cell, cell ∉ owned_cells x_to_win) all_cells.
Proof.
  split.
  - destruct (get_possible_moves_spec x_has_won) as (_ & _ & _ & Hline & _).
    apply (Hline "X").
    + by left.
    + apply (is_winner_true (set_current_state (new_game true) x_has_won) "X").
      vm_compute. reflexivity.
  - destruct (get_possible_moves_spec x_to_win) as (_ & _ & _ & _ & Hreach).
    apply Hreach.
    + apply x_to_win_reachable.
    + vm_compute. reflexivity.
Defined.

(** ** The split of the board *)

(** C6, as stated, fails: after X 1, O 4, X 2, O 5, X 3 the top row is
    X's, no move is possible, and four cells are neither owned nor a
    possible move. *)
Lemma possible_moves_do_not_split_won_board :
  reachable x_has_won ∧
  get_possible_moves x_has_won = [] ∧
  cells_unowned x_has_won = [6; 7; 8; 9] ∧
  ¬ splits_board (get_possible_moves x_has_won) x_has_won.
Proof.
  split; [|split; [|split]].
  - apply x_has_won_reachable.
  - vm_compute. reflexivity.
  - vm_compute. reflexivity.
  - unfold splits_board. apply (bool_decide_unpack _). vm_compute. exact I.
Qed.

(** C6 (amended).  On every reachable state the list of unowned cells and
    the owned cells split the cells 1..9, and a valid move keeps it so.
    The possible moves and the owned cells split them exactly when the
    game is not over or no cell is unowned. *)
Theorem reachable_splits_board (s : TicTacToeState) :
  reachable s →
  splits_board (cells_unowned s) s ∧
  (splits_board (get_possible_moves s) s ↔
     is_over (set_current_state (new_game true) s) = false ∨ cells_unowned s = []) ∧
  ∀ mv, is_valid_move s mv = true →
    splits_board (cells_unowned (make_move s mv)) (make_move s mv).
Proof.
  intros Hreach. pose proof (reachable_inv s Hreach) as [Hmark Hsplit Hord].
  split; [done|]. split.
  - unfold get_possible_moves. cbv zeta.
    destruct (is_over _) eqn:Hover.
    + split.
      * intros [Hcover Hdisj]. right.
        destruct Hsplit as [Hcover' Hdisj'].
        destruct (cells_unowned s) as [|c cs]; [done|]. exfalso.
        apply (Hdisj' c); [apply elem_of_list_to_set; by left|].
        rewrite list_to_set_nil, (left_id_L ∅ (∪)) in Hcover.
        rewrite Hcover, <- Hcover'. apply elem_of_union_l.
        apply elem_of_list_to_set. by left.
      * intros [?| Hnil]; [done|]. by rewrite <- Hnil.
    + split; [by left|done].
  - intros mv Hmv.
    apply splits_board_make_move; [done| |done].
    by apply get_possible_moves_unowned, is_valid_move_true.
Qed.

Lemma reachable_splits_board_witness :
  splits_board (cells_unowned x_to_win) x_to_win ∧
  splits_board (cells_unowned (make_move x_to_win 3)) (make_move x_to_win 3).
Proof.
  destruct (reachable_splits_board x_to_win x_to_win_reachable)
    as (Hsplit & _ & Hmove).
  split; [exact Hsplit|]. apply Hmove. vm_compute. reflexivity.
Defined.

(** ** Moves that are not valid *)

(** C7, as stated, fails: with cell 1 owned by X and O to move,
    [make_move] on cell 1 raises nothing and returns a state in which the
    cell is O's. *)
Lemma make_move_accepts_owned_cell :
  reachable after_x1 ∧
  owned after_x1 1 ∧
  make_move_outcome after_x1 1 = Returns (make_move after_x1 1) ∧
  (¬ ∃ e, make_move_outcome after_x1 1 = Raises e) ∧
  cells_owned (make_move after_x1 1) !! 1 = Some (PStr "O") ∧
  cells_unowned (make_move after_x1 1) = cells_unowned after_x1.
Proof.
  split; [apply after_x1_reachable|]. split; [|split; [|split; [|split]]].
  - left. vm_compute. reflexivity.
  - reflexivity.
  - intros [e He]. discriminate He.
  - vm_compute. reflexivity.
  - vm_compute. reflexivity.
Qed.

(** C7 (amended).  [make_move] checks nothing and always returns a state.
    The check is [is_valid_move]: on a reachable state it is false for a
    cell that is owned, for a cell outside 1..9, and whenever no move is
    possible. *)
Theorem make_move_unchecked (s : TicTacToeState) (move : Z) :
  make_move_outcome s move = Returns (make_move s move) ∧
  (reachable s →
   owned s move ∨ ¬ (1 ≤ move ≤ 9) ∨ get_possible_moves s = [] →
   is_valid_move s move = false).
Proof.
  split; [reflexivity|].
  intros Hreach Hbad. apply mem_false. intros Hin.
  pose proof (reachable_inv s Hreach) as [_ [Hcover Hdisj] _].
  destruct Hbad as [Hown|[Hrange|Hterm]].
  - apply get_possible_moves_unowned in Hin.
    apply (Hdisj move); [by apply elem_of_list_to_set|by apply elem_of_owned_cells].
  - apply get_possible_moves_unowned in Hin. apply Hrange, elem_of_all_cells.
    apply (elem_of_list_to_set (C := gset Z)). rewrite <- Hcover.
    apply elem_of_union_l. by apply elem_of_list_to_set.
  - rewrite Hterm in Hin. by apply elem_of_nil in Hin.
Qed.

Lemma make_move_unchecked_witness :
  is_valid_move after_x1 1 = false.
Proof.
  apply (make_move_unchecked after_x1 1).
  - apply after_x1_reachable.
  - left. left. vm_compute. reflexivity.
Defined.

(** ** [make_move] on the store *)

Lemma alloc_subseteq (h : gmap nat obj) (o : obj) : h ⊆ (alloc h o).1.
Proof. simpl. apply insert_subseteq, not_elem_of_dom, is_fresh. Qed.

Lemma copy_dict_heap_spec (h : gmap nat obj) (d : nat) (m : gmap Z pyval) :
  h !! d = Some (ODict m) →
  copy_dict_heap h d = Some (<[fresh (dom h) := ODict m]> h, fresh (dom h)).
Proof.
  intros Hd. unfold copy_dict_heap, alloc. rewrite Hd. cbv zeta. f_equal. f_equal.
  apply (map_fold_weak_ind (λ r m', r = <[fresh (dom h) := ODict m']> h)); [done|].
  intros key v m' r _ ->. unfold dict_setitem.
  by rewrite lookup_insert_eq, insert_insert_eq.
Qed.

Lemma state_at_weaken (h h' : gmap nat obj) (l : nat) (s : TicTacToeState) :
  h ⊆ h' → state_at h l = Some s → state_at h' l = Some s.
Proof.
  intros Hsub. unfold state_at.
  destruct (h !! l) as [[| |o u p]|] eqn:Hl; try done.
  destruct (h !! o) as [[d| |]|] eqn:Ho; try done.
  destruct (h !! u) as [[|c|]|] eqn:Hu; try done.
  intros [= <-].
  rewrite (lookup_weaken _ _ _ _ Hl Hsub), (lookup_weaken _ _ _ _ Ho Hsub),
    (lookup_weaken _ _ _ _ Hu Hsub). done.
Qed.

(** One call: a new state object for the successor, every object of the
    store before the call as it was. *)
Lemma make_move_heap_spec (h : gmap nat obj) (self : nat) (s : TicTacToeState)
    (move : Z) :
  state_at h self = Some s →
  ∃ h' r, make_move_heap h self move = Some (h', r) ∧
          h !! r = None ∧ h ⊆ h' ∧
          state_at h' r = Some (make_move s move).
Proof.
  unfold state_at, make_move_heap.
  destruct (h !! self) as [[| |o u p]|] eqn:Hself; try done.
  destruct (h !! o) as [[d| |]|] eqn:Ho; try done.
  destruct (h !! u) as [[|c|]|] eqn:Hu; try done.
  intros [= <-]. unfold alloc at 1. cbv zeta.
  set (l1 := fresh (dom h)).
  set (h1 := <[l1 := OList (filter (λ cell, cell ≠ move) c)]> h).
  assert (Hl1 : h !! l1 = None) by apply not_elem_of_dom, is_fresh.
  assert (Ho1 : h1 !! o = Some (ODict d)).
  { unfold h1. rewrite lookup_insert_ne; [done|]. intros ->. congruence. }
  rewrite (copy_dict_heap_spec h1 o d Ho1).
  set (l2 := fresh (dom h1)).
  assert (Hl2 : h1 !! l2 = None) by apply not_elem_of_dom, is_fresh.
  unfold dict_setitem. rewrite lookup_insert_eq, insert_insert_eq.
  set (h3 := <[l2 := ODict (<[move := PStr p]> d)]> h1).
  unfold alloc. cbv zeta.
  set (l3 := fresh (dom h3)).
  assert (Hl3 : h3 !! l3 = None) by apply not_elem_of_dom, is_fresh.
  assert (H13 : h1 ⊆ h3) by (by apply insert_subseteq).
  assert (H01 : h ⊆ h1) by (by apply insert_subseteq).
  eexists _, l3. split; [reflexivity|]. split; [|split].
  - destruct (h !! l3) eqn:Hl; [|done].
    rewrite (lookup_weaken _ _ _ _ Hl (transitivity H01 H13)) in Hl3. done.
  - etrans; [exact H01|]. etrans; [exact H13|]. by apply insert_subseteq.
  - rewrite lookup_insert_eq.
    assert (H1 : h1 !! l1 = Some (OList (filter (λ cell, cell ≠ move) c)))
      by apply lookup_insert_eq.
    assert (H2 : h3 !! l2 = Some (ODict (<[move := PStr p]> d)))
      by apply lookup_insert_eq.
    assert (H12 : l1 ≠ l2) by congruence.
    assert (H3 : h3 !! l1 = Some (OList (filter (λ cell, cell ≠ move) c))).
    { unfold h3. by rewrite lookup_insert_ne. }
    assert (H23 : l2 ≠ l3) by congruence.
    assert (H13' : l1 ≠ l3) by congruence.
    rewrite !(lookup_insert_ne _ l3) by done.
    rewrite H2, H3. unfold make_move. simpl. by rewrite copy_dict_id.
Qed.

(** C8.  On a store where [self] is a state object standing for [s], two
    calls of [make_move] with the same move return two different objects
    standing for the same state, [make_move s move]; every object of the
    store before a call is unchanged by it, so [self] still stands for
    [s], with its dict, its list and its player. *)
Theorem make_move_receiver_unchanged (h : gmap nat obj) (self : nat)
    (s : TicTacToeState) (move : Z) :
  state_at h self = Some s →
  ∃ h1 r1 h2 r2,
    make_move_heap h self move = Some (h1, r1) ∧
    make_move_heap h1 self move = Some (h2, r2) ∧
    r1 ≠ r2 ∧
    state_at h2 r1 = Some (make_move s move) ∧
    state_at h2 r2 = Some (make_move s move) ∧
    h ⊆ h1 ∧ h1 ⊆ h2 ∧
    state_at h1 self = Some s ∧ state_at h2 self = Some s.
Proof.
  intros Hself.
  destruct (make_move_heap_spec h self s move Hself) as (h1 & r1 & Hcall1 & Hr1 & Hsub1 & Hat1).
  pose proof (state_at_weaken _ _ _ _ Hsub1 Hself) as Hself1.
  destruct (make_move_heap_spec h1 self s move Hself1) as (h2 & r2 & Hcall2 & Hr2 & Hsub2 & Hat2).
  exists h1, r1, h2, r2. repeat split; try done.
  - intros ->. unfold state_at in Hat1. by rewrite Hr2 in Hat1.
  - by apply (state_at_weaken h1).
  - by apply (state_at_weaken h1).
Qed.

Lemma make_move_receiver_unchanged_witness :
  ∃ h1 r1 h2 r2,
    make_move_heap (new_state_heap ∅ true).1 (new_state_heap ∅ true).2 5 = Some (h1, r1) ∧
    make_move_heap h1 (new_state_heap ∅ true).2 5 = Some (h2, r2) ∧
    r1 ≠ r2 ∧
    state_at h2 r1 = Some (make_move (initial_state true) 5) ∧
    state_at h2 r2 = Some (make_move (initial_state true) 5) ∧
    (new_state_heap ∅ true).1 ⊆ h1 ∧ h1 ⊆ h2 ∧
    state_at h1 (new_state_heap ∅ true).2 = Some (initial_state true) ∧
    state_at h2 (new_state_heap ∅ true).2 = Some (initial_state true).
Proof.
  apply (make_move_receiver_unchanged (new_state_heap ∅ true).1
           (new_state_heap ∅ true).2 (initial_state true) 5).
  vm_compute. reflexivity.
Defined.

(** ** The scenario of two in a row *)

(** C9, as stated, fails: with X on 1 and 2, O on 4 and 5 and X to move,
    the state after X takes 3 has score -1, being scored for O, who is
    then to move and has lost. *)
Lemma score_after_winning_move :
  get_possible_moves (two_in_a_row "X" "O") = [3; 6; 7; 8; 9] ∧
  current_player (make_move (two_in_a_row "X" "O") 3) = "O"%string ∧
  score_state_rec (make_move (two_in_a_row "X" "O") 3) = -1 ∧
  score_state_rec (make_move (two_in_a_row "X" "O") 3) ≠ 1.
Proof.
  split; [|split; [|split]]; vm_compute; (reflexivity || discriminate).
Qed.

(** C9 (amended).  With [a] on 1 and 2, [b] on 4 and 5 and [a] to move,
    [a] and [b] being X and O either way, [get_best_moves_rec] returns
    cell 3 alone; the state after cell 3 has score -1, its negation, the
    value of the move for [a], is 1, and so is the score of the state. *)
Theorem two_in_a_row_best_move (a b : string) :
  (a = "X"%string ∧ b = "O"%string) ∨ (a = "O"%string ∧ b = "X"%string) →
  ∃ best_moves,
    get_best_moves_rec (two_in_a_row a b) = Returns best_moves ∧
    3 ∈ best_moves ∧ best_moves = [3] ∧
    score_state_rec (make_move (two_in_a_row a b) 3) = -1 ∧
    -1 * score_state_rec (make_move (two_in_a_row a b) 3) = 1 ∧
    score_state_rec (two_in_a_row a b) = 1.
Proof.
  intros [[-> ->]|[-> ->]]; exists [3];
    (split; [vm_compute; reflexivity|]);
    (split; [by left|]);
    (split; [reflexivity|]);
    repeat split; vm_compute; reflexivity.
Qed.

Lemma two_in_a_row_best_move_witness :
  ∃ best_moves,
    get_best_moves_rec (two_in_a_row "X" "O") = Returns best_moves ∧
    3 ∈ best_moves ∧ best_moves = [3] ∧
    score_state_rec (make_move (two_in_a_row "X" "O") 3) = -1 ∧
    -1 * score_state_rec (make_move (two_in_a_row "X" "O") 3) = 1 ∧
    score_state_rec (two_in_a_row "X" "O") = 1.
Proof.
  apply (two_in_a_row_best_move "X" "O"). left. split; reflexivity.
Defined.

(** ** Further properties of the states of the game *)

Lemma is_mark_other (p : string) : is_mark (other_mark p).
Proof. unfold other_mark. destruct (String.eqb p "X"); [by right|by left]. Qed.

Lemma other_mark_ne (p : string) : other_mark p ≠ p.
Proof.
  unfold other_mark. destruct (String.eqb p "X") eqn:Hp.
  - apply String.eqb_eq in Hp as ->. done.
  - apply String.eqb_neq in Hp. intros <-. done.
Qed.

Lemma not_over_no_line (s : TicTacToeState) (p : string) :
  get_possible_moves s ≠ [] → is_mark p → ¬ has_line s p.
Proof.
  intros Hmoves Hp Hline. apply Hmoves, get_possible_moves_nil, is_over_true.
  simpl. destruct Hp as [-> | ->]; auto.
Qed.

Lemma has_line_before_move (s : TicTacToeState) (mv : Z) (q : string) :
  q ≠ current_player s → has_line (make_move s mv) q → has_line s q.
Proof.
  intros Hq (combo & Hin & Hall). exists combo. split; [done|].
  intros cell Hcell. specialize (Hall cell Hcell).
  unfold owned_by in *. simpl in Hall. rewrite copy_dict_id in Hall.
  destruct (decide (mv = cell)) as [->|Hne].
  - rewrite lookup_insert_eq in Hall. congruence.
  - by rewrite lookup_insert_ne in Hall.
Qed.

Lemma reachable_mover_no_line (s : TicTacToeState) :
  reachable s → ¬ has_line s (current_player s).
Proof.
  induction 1 as [x_first|s mv Hreach IH Hmv].
  - intros Hline.
    apply (is_winner_true (new_game x_first)) in Hline.
    destruct x_first; vm_compute in Hline; discriminate.
  - intros Hline. apply has_line_before_move in Hline.
    + apply is_valid_move_true in Hmv.
      apply (not_over_no_line s (current_player (make_move s mv)));
        [|apply is_mark_other|done].
      intros Hnil. rewrite Hnil in Hmv. by apply elem_of_nil in Hmv.
    + apply other_mark_ne.
Qed.

(** X1.  On a reachable state the player to move owns no winning line:
    only the player who has just moved can have one, so X and O never both
    have one. *)
Theorem reachable_mover_has_no_line (s : TicTacToeState) :
  reachable s →
  ¬ has_line s (current_player s) ∧
  ¬ (has_line s "X" ∧ has_line s "O").
Proof.
  intros Hreach. pose proof (reachable_mover_no_line s Hreach) as Hmover.
  split; [done|]. intros [HX HO].
  destruct (inv_player s (reachable_inv s Hreach)) as [Hp|Hp];
    rewrite Hp in Hmover; done.
Qed.

Lemma reachable_mover_has_no_line_witness :
  ¬ has_line x_has_won (current_player x_has_won) ∧
  ¬ (has_line x_has_won "X" ∧ has_line x_has_won "O").
Proof.
  apply (reachable_mover_has_no_line x_has_won). apply x_has_won_reachable.
Defined.

Lemma board_ok_initial (x_first : bool) : board_ok (initial_state x_first).
Proof.
  split.
  - intros cell Hcell. left.
    assert (Hc : cell = 1 ∨ cell = 2 ∨ cell = 3 ∨ cell = 4 ∨ cell = 5 ∨
                 cell = 6 ∨ cell = 7 ∨ cell = 8 ∨ cell = 9) by lia.
    split.
    + repeat (destruct Hc as [-> | Hc]; [reflexivity|]). by subst.
    + apply elem_of_all_cells, Hcell.
  - intros cell Hcell. apply not_elem_of_list_to_map_1. simpl.
    intros Hin. apply Hcell. by apply elem_of_all_cells.
  - apply all_cells_NoDup.
Qed.

Lemma board_ok_make_move (s : TicTacToeState) (mv : Z) :
  board_ok s → is_mark (current_player s) → 1 ≤ mv ≤ 9 →
  board_ok (make_move s mv).
Proof.
  intros [Hcells Hkeys Hnd] Hmark Hmv. split.
  - intros cell Hcell. simpl. rewrite copy_dict_id.
    destruct (decide (mv = cell)) as [->|Hne].
    + right. exists (current_player s). rewrite lookup_insert_eq.
      split; [done|]. split; [done|].
      rewrite list_elem_of_filter. intros [Hne _]. by apply Hne.
    + rewrite lookup_insert_ne by done.
      destruct (Hcells cell Hcell) as [[Hl Hin]|(p & Hp & Hl & Hin)].
      * left. split; [done|]. rewrite list_elem_of_filter.
        split; [congruence|done].
      * right. exists p. split; [done|]. split; [done|].
        rewrite list_elem_of_filter. intros [_ ?]. done.
  - intros cell Hcell. simpl. rewrite copy_dict_id, lookup_insert_ne; [by apply Hkeys|].
    intros ->. done.
  - simpl. by apply NoDup_filter.
Qed.

Lemma reachable_board_shape (s : TicTacToeState) : reachable s → board_ok s.
Proof.
  induction 1 as [x_first|s mv Hreach IH Hmv]; [apply board_ok_initial|].
  pose proof (reachable_inv s Hreach) as [Hmark [Hcover _] _].
  apply board_ok_make_move; [done|done|].
  apply elem_of_all_cells, (elem_of_list_to_set (C := gset Z)).
  rewrite <- Hcover. apply elem_of_union_l, elem_of_list_to_set.
  by apply get_possible_moves_unowned, is_valid_move_true.
Qed.

(** X2.  On a reachable state the dict has exactly the keys 1..9; a cell is
    either stored under its own number and listed as unowned, or marked X
    or O and not listed; the list of unowned cells has no cell twice. *)
Theorem reachable_board_ok (s : TicTacToeState) : reachable s → board_ok s.
Proof. apply reachable_board_shape. Qed.

Lemma reachable_board_ok_witness : board_ok x_to_win.
Proof. apply (reachable_board_ok x_to_win). apply x_to_win_reachable. Defined.

(** X3.  On a reachable state [is_valid_move] accepts exactly the cells of
    1..9 that carry no mark, and only while the game is not over. *)
Theorem is_valid_move_iff (s : TicTacToeState) (move : Z) :
  reachable s →
  (is_valid_move s move = true ↔
   is_over (set_current_state (new_game true) s) = false ∧
   1 ≤ move ≤ 9 ∧ ¬ owned s move).
Proof.
  intros Hreach.
  pose proof (reachable_inv s Hreach) as [_ [Hcover Hdisj] _].
  rewrite is_valid_move_true. unfold get_possible_moves. cbv zeta.
  destruct (is_over _).
  - split; [by intros ?%elem_of_nil|]. by intros [? _].
  - rewrite <- elem_of_all_cells, <- elem_of_owned_cells.
    rewrite <- (elem_of_list_to_set (C := gset Z) move all_cells), <- Hcover.
    rewrite elem_of_union, elem_of_list_to_set. split.
    + intros Hin. split; [done|]. split; [by left|].
      intros Hown. apply (Hdisj move); [by apply elem_of_list_to_set|done].
    + intros (_ & [Hin|Hown] & Hnot); done.
Qed.

Lemma is_valid_move_iff_witness :
  is_valid_move x_to_win 3 = true ↔
  is_over (set_current_state (new_game true) x_to_win) = false ∧
  1 ≤ 3 ≤ 9 ∧ ¬ owned x_to_win 3.
Proof. apply (is_valid_move_iff x_to_win 3). apply x_to_win_reachable. Defined.

Lemma length_filter_ne (l : list Z) (x : Z) :
  NoDup l → x ∈ l → S (length (filter (λ y, y ≠ x) l)) = length l.
Proof.
  induction l as [|a l IH]; intros Hnd Hx; [by apply elem_of_nil in Hx|].
  apply NoDup_cons in Hnd as [Ha Hnd]. rewrite filter_cons.
  destruct (decide (a ≠ x)) as [Hne|Heq].
  - simpl. f_equal. apply IH; [done|].
    apply elem_of_cons in Hx as [->|Hx]; done.
  - assert (a = x) as -> by (destruct (decide (a = x)); [done|by destruct Heq]).
    simpl. f_equal.
    rewrite (filter_ext_in (λ y, y ≠ x) (λ _, True) l).
    + clear. induction l as [|b l IH]; [done|].
      rewrite filter_cons_True by done. simpl. by f_equal.
    + intros y Hy. split; [done|]. intros _ ->. done.
Qed.

(** X4.  A valid move on a reachable state marks its cell for the player
    who moves and leaves every other entry of the dict as it was; the cell
    leaves the list of unowned cells, which gets one shorter and keeps its
    order; the other player is to move. *)
Theorem make_move_valid_effect (s : TicTacToeState) (move : Z) :
  reachable s → is_valid_move s move = true →
  cells_owned (make_move s move) !! move = Some (PStr (current_player s)) ∧
  (∀ cell, cell ≠ move →
     cells_owned (make_move s move) !! cell = cells_owned s !! cell) ∧
  owned_cells (make_move s move) = {[move]} ∪ owned_cells s ∧
  (move ∉ cells_unowned (make_move s move)) ∧
  (S (length (cells_unowned (make_move s move))) = length (cells_unowned s)) ∧
  (cells_unowned (make_move s move) `sublist_of` cells_unowned s) ∧
  current_player (make_move s move) = other_mark (current_player s) ∧
  current_player (make_move s move) ≠ current_player s.
Proof.
  intros Hreach Hmv.
  pose proof (reachable_inv s Hreach) as [Hmark _ _].
  pose proof (reachable_board_shape s Hreach) as [_ _ Hnd].
  apply is_valid_move_true, get_possible_moves_unowned in Hmv.
  repeat split.
  - simpl. by rewrite lookup_insert_eq.
  - intros cell Hne. simpl. by rewrite copy_dict_id, lookup_insert_ne.
  - apply set_eq. intros cell.
    rewrite elem_of_union, elem_of_singleton, !elem_of_owned_cells.
    by apply owned_make_move.
  - simpl. rewrite list_elem_of_filter. intros [Hne _]. by apply Hne.
  - simpl. by apply length_filter_ne.
  - simpl. apply sublist_filter.
  - apply other_mark_ne.
Qed.

Lemma make_move_valid_effect_witness :
  cells_owned (make_move x_to_win 3) !! 3 = Some (PStr (current_player x_to_win)) ∧
  (∀ cell, cell ≠ 3 →
     cells_owned (make_move x_to_win 3) !! cell = cells_owned x_to_win !! cell) ∧
  owned_cells (make_move x_to_win 3) = {[3]} ∪ owned_cells x_to_win ∧
  (3 ∉ cells_unowned (make_move x_to_win 3)) ∧
  (S (length (cells_unowned (make_move x_to_win 3))) = length (cells_unowned x_to_win)) ∧
  (cells_unowned (make_move x_to_win 3) `sublist_of` cells_unowned x_to_win) ∧
  current_player (make_move x_to_win 3) = other_mark (current_player x_to_win) ∧
  current_player (make_move x_to_win 3) ≠ current_player x_to_win.
Proof.
  apply (make_move_valid_effect x_to_win 3).
  - apply x_to_win_reachable.
  - vm_compute. reflexivity.
Defined.

Lemma other_mark_involutive (p : string) : is_mark p → other_mark (other_mark p) = p.
Proof. by intros [-> | ->]. Qed.

Lemma legal_play_progress (moves : list Z) (s : TicTacToeState) :
  reachable s → legal_play s moves = true →
  (length (cells_unowned (play s moves)) + length moves =
     length (cells_unowned s))%nat ∧
  current_player (play s moves) =
    (if Nat.even (length moves) then current_player s
     else other_mark (current_player s)).
Proof.
  revert s. induction moves as [|mv rest IH]; intros s Hreach Hlegal.
  { simpl. split; [lia|done]. }
  simpl in Hlegal. destruct (is_valid_move s mv) eqn:Hmv; [|done].
  destruct (IH (make_move s mv)) as [Hlen Hplayer]; [by constructor|done|].
  pose proof (reachable_board_shape s Hreach) as [_ _ Hnd].
  pose proof (reachable_inv s Hreach) as [Hmark _ _].
  assert (Hin : mv ∈ cells_unowned s)
    by (by apply get_possible_moves_unowned, is_valid_move_true).
  pose proof (length_filter_ne _ mv Hnd Hin) as Hone.
  change (play s (mv :: rest)) with (play (make_move s mv) rest).
  split.
  - simpl in Hlen. simpl length. lia.
  - rewrite Hplayer. change (length (mv :: rest)) with (S (length rest)).
    rewrite Nat.even_succ, <- Nat.negb_even.
    change (current_player (make_move s mv)) with (other_mark (current_player s)).
    destruct (Nat.even (length rest)); simpl; [done|].
    by apply other_mark_involutive.
Qed.

(** X5.  After any sequence of valid moves from a new game, one cell per
    move is marked and the rest of the nine are unowned, so no game has
    more than nine moves; the first player is to move after an even number
    of moves and the other one after an odd number. *)
Theorem legal_play_from_new_game (x_first : bool) (moves : list Z) :
  legal_play (initial_state x_first) moves = true →
  (length (cells_unowned (play (initial_state x_first) moves)) + length moves = 9)%nat ∧
  size (owned_cells (play (initial_state x_first) moves)) = length moves ∧
  (length moves ≤ 9)%nat ∧
  current_player (play (initial_state x_first) moves) =
    (if Nat.even (length moves) then current_player (initial_state x_first)
     else other_mark (current_player (initial_state x_first))).
Proof.
  intros Hlegal.
  destruct (legal_play_progress moves (initial_state x_first)) as [Hlen Hplayer];
    [constructor|done|].
  assert (Hreach : reachable (play (initial_state x_first) moves))
    by (apply reachable_play; [constructor|done]).
  pose proof (reachable_inv _ Hreach) as [_ [Hcover Hdisj] _].
  pose proof (reachable_board_shape _ Hreach) as [_ _ Hnd].
  assert (Hsize : (length (cells_unowned (play (initial_state x_first) moves)) +
                   size (owned_cells (play (initial_state x_first) moves)) = 9)%nat).
  { rewrite <- (size_list_to_set (C := gset Z)) by done.
    rewrite <- size_union by done. rewrite Hcover.
    rewrite size_list_to_set by apply all_cells_NoDup. reflexivity. }
  change (length (cells_unowned (initial_state x_first))) with 9%nat in Hlen.
  repeat split; [lia|lia|lia|done].
Qed.

Lemma legal_play_from_new_game_witness :
  (length (cells_unowned x_to_win) + 4 = 9)%nat ∧
  size (owned_cells x_to_win) = 4%nat ∧
  (4 ≤ 9)%nat ∧
  current_player x_to_win = current_player (initial_state true).
Proof.
  apply (legal_play_from_new_game true [1; 4; 2; 5]). vm_compute. reflexivity.
Defined.

Lemma terminal_score_of_reachable (s : TicTacToeState) :
  reachable s → get_possible_moves s = [] →
  (score_state_rec s = -1 ∨ score_state_rec s = 0) ∧
  (score_state_rec s = -1 ↔ has_line s (other_mark (current_player s))) ∧
  (score_state_rec s = 0 ↔ ¬ has_line s "X" ∧ ¬ has_line s "O").
Proof.
  intros Hreach Hterm. rewrite (score_state_rec_terminal s Hterm).
  pose proof (reachable_mover_no_line s Hreach) as Hmover.
  pose proof (reachable_inv s Hreach) as [Hmark _ _].
  pose proof (is_winner_true (set_current_state (new_game true) s) "X") as HX.
  pose proof (is_winner_true (set_current_state (new_game true) s) "O") as HO.
  simpl in HX, HO.
  unfold terminal_score, extract_winner, other_mark. cbv zeta.
  destruct Hmark as [Hp|Hp]; rewrite Hp in *; simpl;
    destruct (is_winner _ "O"), (is_winner _ "X"); simpl;
    intuition (try discriminate; try lia; auto).
Qed.

(** X6.  On a reachable state without possible moves the score is -1 or 0,
    never 1: it is -1 exactly when the player who has just moved owns a
    winning line, and 0 exactly when neither X nor O owns one. *)
Theorem terminal_score_reachable (s : TicTacToeState) :
  reachable s → get_possible_moves s = [] →
  (score_state_rec s = -1 ∨ score_state_rec s = 0) ∧
  (score_state_rec s = -1 ↔ has_line s (other_mark (current_player s))) ∧
  (score_state_rec s = 0 ↔ ¬ has_line s "X" ∧ ¬ has_line s "O").
Proof. apply terminal_score_of_reachable. Qed.

Lemma terminal_score_reachable_witness :
  (score_state_rec x_has_won = -1 ∨ score_state_rec x_has_won = 0) ∧
  (score_state_rec x_has_won = -1 ↔
     has_line x_has_won (other_mark (current_player x_has_won))) ∧
  (score_state_rec x_has_won = 0 ↔
     ¬ has_line x_has_won "X" ∧ ¬ has_line x_has_won "O").
Proof.
  apply (terminal_score_reachable x_has_won).
  - apply x_has_won_reachable.
  - vm_compute. reflexivity.
Defined.

(** ** What the scores mean *)

Lemma terminal_score_win (s : TicTacToeState) :
  terminal_score s = 1 ↔ extract_winner s = current_player s.
Proof.
  unfold terminal_score. cbv zeta.
  destruct (String.eqb (extract_winner s) (current_player s)) eqn:Hw.
  - apply String.eqb_eq in Hw. done.
  - apply String.eqb_neq in Hw.
    destruct (String.eqb _ _); split; intros H; first [lia | congruence].
Qed.

Lemma terminal_score_loss (s : TicTacToeState) :
  is_mark (current_player s) →
  terminal_score s = -1 ↔ extract_winner s = other_mark (current_player s).
Proof.
  intros Hmark. unfold terminal_score, other_mark. cbv zeta.
  destruct Hmark as [-> | ->]; simpl.
  - destruct (String.eqb (extract_winner s) "X") eqn:Hw1.
    + apply String.eqb_eq in Hw1. rewrite Hw1. split; intros H; discriminate H.
    + destruct (String.eqb (extract_winner s) "O") eqn:Hw2.
      * apply String.eqb_eq in Hw2. by rewrite Hw2.
      * apply String.eqb_neq in Hw2. split; intros H; first [lia | congruence].
  - destruct (String.eqb (extract_winner s) "O") eqn:Hw1.
    + apply String.eqb_eq in Hw1. rewrite Hw1. split; intros H; discriminate H.
    + destruct (String.eqb (extract_winner s) "X") eqn:Hw2.
      * apply String.eqb_eq in Hw2. by rewrite Hw2.
      * apply String.eqb_neq in Hw2. split; intros H; first [lia | congruence].
Qed.

Lemma negated_scores_elem (s : TicTacToeState) (mv : Z) :
  mv ∈ get_possible_moves s →
  -1 * score_state_rec (make_move s mv) ≤ score_state_rec s.
Proof.
  intros Hmv.
  destruct (score_state_rec_is_max s) as [_ Hub].
  { intros Hnil. rewrite Hnil in Hmv. by apply elem_of_nil in Hmv. }
  apply Hub, list_elem_of_fmap. eauto.
Qed.

Lemma negated_scores_attained (s : TicTacToeState) :
  get_possible_moves s ≠ [] →
  ∃ mv, mv ∈ get_possible_moves s ∧
        score_state_rec s = -1 * score_state_rec (make_move s mv).
Proof.
  intros Hne. destruct (score_state_rec_is_max s Hne) as [Hin _].
  apply list_elem_of_fmap in Hin as (mv & Heq & Hmv). eauto.
Qed.

Lemma score_meaning_aux (n : nat) (s : TicTacToeState) :
  (length (cells_unowned s) < n)%nat → is_mark (current_player s) →
  (score_state_rec s = 1 ↔ forced_win s) ∧
  (score_state_rec s = -1 ↔ forced_loss s).
Proof.
  revert s. induction n as [|n IH]; intros s Hlen Hmark; [lia|].
  assert (Hchild : ∀ mv, mv ∈ get_possible_moves s →
            (score_state_rec (make_move s mv) = 1 ↔ forced_win (make_move s mv)) ∧
            (score_state_rec (make_move s mv) = -1 ↔ forced_loss (make_move s mv))).
  { intros mv Hmv. apply IH; [|apply is_mark_other].
    apply get_possible_moves_unowned, make_move_unowned_lt in Hmv. lia. }
  destruct (get_possible_moves s) as [|m0 rest] eqn:Hmoves.
  - rewrite (score_state_rec_terminal s Hmoves). split; split.
    + intros H. apply win_now; [done|]. by apply terminal_score_win.
    + intros H. inversion H as [s' _ Hw|s' mv Hmv _]; subst.
      * by apply terminal_score_win.
      * rewrite Hmoves in Hmv. by apply elem_of_nil in Hmv.
    + intros H. apply loss_now; [done|]. by apply terminal_score_loss.
    + intros H. inversion H as [s' _ Hw|s' Hne _]; subst.
      * by apply terminal_score_loss.
      * by rewrite Hmoves in Hne.
  - assert (Hne : get_possible_moves s ≠ []) by (by rewrite Hmoves).
    rewrite <- Hmoves in Hchild.
    pose proof (score_state_rec_range s) as Hrange.
    split; split.
    + intros H. destruct (negated_scores_attained s Hne) as (mv & Hmv & Heq).
      apply (win_move s mv); [done|]. apply Hchild; [done|]. lia.
    + intros H. inversion H as [s' Hnil _|s' mv Hmv Hloss]; subst.
      * by rewrite Hnil in Hne.
      * apply Hchild in Hloss; [|done].
        pose proof (negated_scores_elem s mv Hmv). lia.
    + intros H. apply loss_all; [done|]. intros mv Hmv.
      apply Hchild; [done|].
      pose proof (negated_scores_elem s mv Hmv).
      pose proof (score_state_rec_range (make_move s mv)). lia.
    + intros H. inversion H as [s' Hnil _|s' _ Hall]; subst.
      * by rewrite Hnil in Hne.
      * destruct (negated_scores_attained s Hne) as (mv & Hmv & Heq).
        specialize (Hall mv Hmv). apply Hchild in Hall; [|done]. lia.
Qed.

(** X7.  What the score says about the game, for a state whose player to
    move is X or O: it is 1 exactly when the player to move can force a
    win, -1 exactly when the player to move cannot avoid a loss, and 0
    otherwise. *)
Theorem score_state_rec_meaning (s : TicTacToeState) :
  is_mark (current_player s) →
  (score_state_rec s = 1 ↔ forced_win s) ∧
  (score_state_rec s = -1 ↔ forced_loss s) ∧
  (score_state_rec s = 0 ↔ ¬ forced_win s ∧ ¬ forced_loss s).
Proof.
  intros Hmark.
  destruct (score_meaning_aux (S (length (cells_unowned s))) s) as [Hwin Hloss];
    [lia|done|].
  split; [done|]. split; [done|].
  rewrite <- Hwin, <- Hloss.
  pose proof (score_state_rec_range s). lia.
Qed.

Lemma score_state_rec_meaning_witness :
  (score_state_rec x_to_win = 1 ↔ forced_win x_to_win) ∧
  (score_state_rec x_to_win = -1 ↔ forced_loss x_to_win) ∧
  (score_state_rec x_to_win = 0 ↔ ¬ forced_win x_to_win ∧ ¬ forced_loss x_to_win).
Proof.
  apply (score_state_rec_meaning x_to_win). left. vm_compute. reflexivity.
Defined.

(** X8.  On a reachable state, a valid move that completes a winning line
    for the player who moves leads to a state of score -1, makes the score
    of the state 1, and is among the moves [get_best_moves_rec] returns. *)
Theorem winning_move_is_best (s : TicTacToeState) (move : Z) :
  reachable s → is_valid_move s move = true →
  has_line (make_move s move) (current_player s) →
  score_state_rec (make_move s move) = -1 ∧
  score_state_rec s = 1 ∧
  ∃ best_moves, get_best_moves_rec s = Returns best_moves ∧ move ∈ best_moves.
Proof.
  intros Hreach Hmv Hline.
  pose proof (reachable_inv s Hreach) as [Hmark _ _].
  assert (Hchild : reachable (make_move s move)) by (by constructor).
  assert (Hterm : get_possible_moves (make_move s move) = []).
  { apply get_possible_moves_nil, is_over_true. right.
    change (current_state _) with (make_move s move).
    destruct Hmark as [Hp|Hp]; rewrite Hp in Hline; auto. }
  assert (Hscore : score_state_rec (make_move s move) = -1).
  { apply (terminal_score_of_reachable _ Hchild Hterm).
    change (current_player (make_move s move)) with (other_mark (current_player s)).
    by rewrite other_mark_involutive. }
  apply is_valid_move_true in Hmv.
  assert (Hne : get_possible_moves s ≠ []).
  { intros Hnil. rewrite Hnil in Hmv. by apply elem_of_nil in Hmv. }
  assert (Hs : score_state_rec s = 1).
  { pose proof (negated_scores_elem s move Hmv).
    pose proof (score_state_rec_range s). lia. }
  split; [done|]. split; [done|].
  destruct (get_best_moves_rec_returns s Hne) as (best & Hmax & Hret).
  eexists. split; [exact Hret|].
  apply list_elem_of_filter. split; [|done].
  rewrite <- (is_max_of_unique _ _ _ (score_state_rec_is_max s Hne) Hmax).
  unfold negated_child_score. lia.
Qed.

Lemma winning_move_is_best_witness :
  score_state_rec (make_move x_to_win 3) = -1 ∧
  score_state_rec x_to_win = 1 ∧
  ∃ best_moves, get_best_moves_rec x_to_win = Returns best_moves ∧ 3 ∈ best_moves.
Proof.
  apply (winning_move_is_best x_to_win 3).
  - apply x_to_win_reachable.
  - vm_compute. reflexivity.
  - apply (is_winner_true (set_current_state (new_game true) (make_move x_to_win 3)) "X").
    vm_compute. reflexivity.
Defined.

Lemma holds_out_aux (p : string) (n : nat) (s : TicTacToeState) :
  (length (cells_unowned s) < n)%nat →
  is_mark p → is_mark (current_player s) →
  (current_player s = p → 0 ≤ score_state_rec s) →
  (current_player s ≠ p → score_state_rec s ≤ 0) →
  holds_out p s.
Proof.
  revert s. induction n as [|n IH]; intros s Hlen Hp Hmark Hown Hother; [lia|].
  destruct (decide (get_possible_moves s = [])) as [Hterm|Hne].
  - apply holds_end; [done|]. intros Hw.
    rewrite (score_state_rec_terminal s Hterm) in Hown, Hother.
    destruct (decide (current_player s = p)) as [Heq|Hneq].
    + rewrite <- Heq in Hw. apply terminal_score_loss in Hw; [|done].
      specialize (Hown Heq). lia.
    + assert (Hcur : current_player s = other_mark p).
      { destruct Hp as [-> | ->], Hmark as [Hc|Hc]; rewrite Hc in *; done. }
      rewrite <- Hcur in Hw. apply terminal_score_win in Hw.
      specialize (Hother Hneq). lia.
  - assert (Hlt : ∀ mv, mv ∈ get_possible_moves s →
              (length (cells_unowned (make_move s mv)) < n)%nat).
    { intros mv Hmv.
      apply get_possible_moves_unowned, make_move_unowned_lt in Hmv. lia. }
    destruct (decide (current_player s = p)) as [Heq|Hneq].
    + apply holds_own; [done|done|]. intros best_moves mv Hret Hmv.
      destruct (get_best_moves_rec_returns s Hne) as (best & Hmax & Hret').
      rewrite Hret' in Hret. injection Hret as <-.
      apply list_elem_of_filter in Hmv as [Hkey Hmv].
      rewrite <- (is_max_of_unique _ _ _ (score_state_rec_is_max s Hne) Hmax) in Hkey.
      unfold negated_child_score in Hkey. specialize (Hown Heq).
      apply IH; [by apply Hlt|done|apply is_mark_other| |].
      * intros Hc. exfalso. simpl in Hc. rewrite Heq in Hc.
        by apply (other_mark_ne p).
      * intros _. lia.
    + apply holds_reply; [done|done|]. intros mv Hmv.
      pose proof (negated_scores_elem s mv Hmv). specialize (Hother Hneq).
      apply IH; [by apply Hlt|done|apply is_mark_other| |].
      * intros _. lia.
      * intros Hc. exfalso. apply Hc.
        change (current_player (make_move s mv)) with (other_mark (current_player s)).
        destruct Hp as [-> | ->], Hmark as [Hc'|Hc']; rewrite Hc' in *; done.
Qed.

(** X9.  A player, X or O, who takes every move from [get_best_moves_rec]
    does not lose from a state whose score is not against that player (at
    least 0 when that player is to move, at most 0 when the other one is),
    whatever moves the other player makes. *)
Theorem minimax_holds_out (p : string) (s : TicTacToeState) :
  is_mark p → is_mark (current_player s) →
  (current_player s = p → 0 ≤ score_state_rec s) →
  (current_player s ≠ p → score_state_rec s ≤ 0) →
  holds_out p s.
Proof. apply (holds_out_aux p (S (length (cells_unowned s)))). lia. Qed.

Lemma minimax_holds_out_witness : holds_out "X" x_to_win.
Proof.
  apply (minimax_holds_out "X" x_to_win).
  - by left.
  - left. vm_compute. reflexivity.
  - intros _. vm_compute. discriminate.
  - intros Hne. exfalso. apply Hne. vm_compute. reflexivity.
Defined.

(** ** Copies, lines and rendering *)

(** X10.  [copy_dict] returns a dict with the keys of its argument and,
    under each key, the value of its argument. *)
Theorem copy_dict_same (d : gmap Z pyval) :
  dom (copy_dict d) = dom d ∧ ∀ key, copy_dict d !! key = d !! key.
Proof. rewrite copy_dict_id. done. Qed.

(** X11.  On the store [copy_dict] leaves its argument as it is and returns
    a new dict object with the same entries; an item assignment on either
    of the two does not change the other. *)
Theorem copy_dict_heap_independent (h : gmap nat obj) (d : nat) (m : gmap Z pyval) :
  h !! d = Some (ODict m) →
  ∃ h' new_dict,
    copy_dict_heap h d = Some (h', new_dict) ∧
    new_dict ≠ d ∧ h !! new_dict = None ∧ h ⊆ h' ∧
    h' !! new_dict = Some (ODict m) ∧ h' !! d = Some (ODict m) ∧
    ∀ key v,
      dict_setitem h' new_dict key v !! d = Some (ODict m) ∧
      dict_setitem h' new_dict key v !! new_dict = Some (ODict (<[key := v]> m)) ∧
      dict_setitem h' d key v !! new_dict = Some (ODict m) ∧
      dict_setitem h' d key v !! d = Some (ODict (<[key := v]> m)).
Proof.
  intros Hd. rewrite (copy_dict_heap_spec h d m Hd).
  assert (Hfresh : h !! fresh (dom h) = None) by apply not_elem_of_dom, is_fresh.
  assert (Hne : fresh (dom h) ≠ d) by congruence.
  eexists _, _. split; [reflexivity|].
  split; [done|]. split; [done|]. split; [by apply insert_subseteq|].
  split; [by rewrite lookup_insert_eq|].
  split; [by rewrite lookup_insert_ne|].
  intros key v. unfold dict_setitem.
  assert (Hd' : <[fresh (dom h) := ODict m]> h !! d = Some (ODict m))
    by (by rewrite lookup_insert_ne).
  rewrite lookup_insert_eq, Hd'. repeat split.
  - by rewrite lookup_insert_ne.
  - by rewrite lookup_insert_eq.
  - by rewrite lookup_insert_ne, lookup_insert_eq.
  - by rewrite lookup_insert_eq.
Qed.

Lemma copy_dict_heap_independent_witness :
  ∃ h' new_dict,
    copy_dict_heap {[ 0%nat := ODict {[ 1 := PInt 1 ]} ]} 0 = Some (h', new_dict) ∧
    new_dict ≠ 0%nat ∧
    ({[ 0%nat := ODict {[ 1 := PInt 1 ]} ]} : gmap nat obj) !! new_dict = None ∧
    {[ 0%nat := ODict {[ 1 := PInt 1 ]} ]} ⊆ h' ∧
    h' !! new_dict = Some (ODict {[ 1 := PInt 1 ]}) ∧
    h' !! 0%nat = Some (ODict {[ 1 := PInt 1 ]}) ∧
    ∀ key v,
      dict_setitem h' new_dict key v !! 0%nat = Some (ODict {[ 1 := PInt 1 ]}) ∧
      dict_setitem h' new_dict key v !! new_dict =
        Some (ODict (<[key := v]> {[ 1 := PInt 1 ]})) ∧
      dict_setitem h' 0 key v !! new_dict = Some (ODict {[ 1 := PInt 1 ]}) ∧
      dict_setitem h' 0 key v !! 0%nat =
        Some (ODict (<[key := v]> {[ 1 := PInt 1 ]})).
Proof.
  apply (copy_dict_heap_independent {[ 0%nat := ODict {[ 1 := PInt 1 ]} ]} 0
           {[ 1 := PInt 1 ]}).
  apply lookup_singleton_eq.
Defined.

(** X12.  [is_winner] answers True exactly when some winning combination
    has its three cells stored under the mark asked for; a cell stored
    under its number or under another mark does not count. *)
Theorem is_winner_iff (g : TicTacToeGame) (player : string) :
  is_winner g player = true ↔
  ∃ a b c, [a; b; c] ∈ winning_combo ∧
    cells_owned (current_state g) !! a = Some (PStr player) ∧
    cells_owned (current_state g) !! b = Some (PStr player) ∧
    cells_owned (current_state g) !! c = Some (PStr player).
Proof.
  rewrite is_winner_true. unfold has_line, owned_by. split.
  - intros (combo & Hin & Hall).
    assert (Hshape : ∃ a b c, combo = [a; b; c]).
    { unfold winning_combo in Hin.
      repeat (apply elem_of_cons in Hin as [-> | Hin]; [by eauto|]).
      by apply elem_of_nil in Hin. }
    destruct Hshape as (a & b & c & ->). exists a, b, c.
    split; [done|]. repeat split; apply Hall.
    + by left.
    + right. by left.
    + right. right. by left.
  - intros (a & b & c & Hin & Ha & Hb & Hc). exists [a; b; c]. split; [done|].
    intros cell Hcell.
    repeat (apply elem_of_cons in Hcell as [-> | Hcell]; [done|]).
    by apply elem_of_nil in Hcell.
Qed.

Lemma dict_getitem_Returns (d : gmap Z pyval) (key : Z) (v : pyval) :
  d !! key = Some v → dict_getitem d key = Returns v.
Proof. intros H. unfold dict_getitem. by rewrite H. Qed.

Lemma dict_getitem_Raises (d : gmap Z pyval) (key : Z) :
  d !! key = None → dict_getitem d key = Raises KeyError.
Proof. intros H. unfold dict_getitem. by rewrite H. Qed.

(** X13.  [__str__] returns a text exactly when the dict has every key of
    1..9, and raises [KeyError] otherwise; on a reachable state it returns. *)
Theorem state_str_defined (s : TicTacToeState) :
  ((∃ text, state_str s = Returns text) ↔
   ∀ cell, 1 ≤ cell ≤ 9 → is_Some (cells_owned s !! cell)) ∧
  (state_str s = Raises KeyError ↔
   ∃ cell, 1 ≤ cell ≤ 9 ∧ cells_owned s !! cell = None) ∧
  (reachable s → ∃ text, state_str s = Returns text).
Proof.
  assert (Hall : (∀ cell, 1 ≤ cell ≤ 9 → is_Some (cells_owned s !! cell)) →
                 ∃ text, state_str s = Returns text).
  { intros Hdom. unfold state_str.
    destruct (Hdom 1) as [v1 H1]; [lia|]. destruct (Hdom 2) as [v2 H2]; [lia|].
    destruct (Hdom 3) as [v3 H3]; [lia|]. destruct (Hdom 4) as [v4 H4]; [lia|].
    destruct (Hdom 5) as [v5 H5]; [lia|]. destruct (Hdom 6) as [v6 H6]; [lia|].
    destruct (Hdom 7) as [v7 H7]; [lia|]. destruct (Hdom 8) as [v8 H8]; [lia|].
    destruct (Hdom 9) as [v9 H9]; [lia|].
    rewrite (dict_getitem_Returns _ _ _ H1), (dict_getitem_Returns _ _ _ H2),
      (dict_getitem_Returns _ _ _ H3), (dict_getitem_Returns _ _ _ H4),
      (dict_getitem_Returns _ _ _ H5), (dict_getitem_Returns _ _ _ H6),
      (dict_getitem_Returns _ _ _ H7), (dict_getitem_Returns _ _ _ H8),
      (dict_getitem_Returns _ _ _ H9).
    simpl bind. by eexists. }
  assert (Hmiss : (∃ cell, 1 ≤ cell ≤ 9 ∧ cells_owned s !! cell = None) →
                  state_str s = Raises KeyError).
  { intros (cell & Hcell & Hnone). unfold state_str, dict_getitem.
    assert (Hc : cell = 1 ∨ cell = 2 ∨ cell = 3 ∨ cell = 4 ∨ cell = 5 ∨
                 cell = 6 ∨ cell = 7 ∨ cell = 8 ∨ cell = 9) by lia.
    destruct (cells_owned s !! 1) eqn:H1; [|done].
    destruct (cells_owned s !! 2) eqn:H2; [|done].
    destruct (cells_owned s !! 3) eqn:H3; [|done].
    destruct (cells_owned s !! 4) eqn:H4; [|done].
    destruct (cells_owned s !! 5) eqn:H5; [|done].
    destruct (cells_owned s !! 6) eqn:H6; [|done].
    destruct (cells_owned s !! 7) eqn:H7; [|done].
    destruct (cells_owned s !! 8) eqn:H8; [|done].
    destruct (cells_owned s !! 9) eqn:H9; [|done].
    exfalso. repeat (destruct Hc as [-> | Hc]; [congruence|]). congruence. }
  assert (Hcases : (∀ cell, 1 ≤ cell ≤ 9 → is_Some (cells_owned s !! cell)) ∨
                   (∃ cell, 1 ≤ cell ≤ 9 ∧ cells_owned s !! cell = None)).
  { destruct (decide (Forall (λ cell, is_Some (cells_owned s !! cell)) all_cells))
      as [Hf|Hf].
    - left. intros cell Hcell. rewrite Forall_forall in Hf.
      by apply Hf, elem_of_all_cells.
    - right. apply not_Forall_Exists in Hf; [|apply _].
      apply Exists_exists in Hf as (cell & Hin & Hnot).
      exists cell. split; [by apply elem_of_all_cells|].
      by apply eq_None_not_Some. }
  split; [|split].
  - split; [|done]. intros [text Hret] cell Hcell.
    destruct Hcases as [Hdom|Hex]; [by apply Hdom|].
    rewrite (Hmiss Hex) in Hret. discriminate.
  - split; [|done]. intros Hraise.
    destruct Hcases as [Hdom|Hex]; [|done].
    destruct (Hall Hdom) as [text Hret]. rewrite Hret in Hraise. discriminate.
  - intros Hreach. apply Hall. intros cell Hcell.
    destruct (board_cells s (reachable_board_shape s Hreach) cell Hcell)
      as [[Hl _]|(p & _ & Hl & _)]; by eexists.
Qed.

Lemma state_str_defined_witness : ∃ text, state_str x_to_win = Returns text.
Proof.
  destruct (state_str_defined x_to_win) as (_ & _ & Hreach).
  apply Hreach. apply x_to_win_reachable.
Defined.

(** X14.  [get_best_moves_rec] raises [ValueError] exactly when no move is
    possible and raises nothing else; a list it returns is never empty, so
    [recursive_minimax] always draws from a non-empty range, and it lists
    unowned cells in the order of the list of unowned cells. *)
Theorem get_best_moves_rec_outcome (s : TicTacToeState) :
  (get_best_moves_rec s = Raises ValueError ↔ get_possible_moves s = []) ∧
  (∀ e, get_best_moves_rec s = Raises e → e = ValueError) ∧
  (∀ best_moves, get_best_moves_rec s = Returns best_moves →
     best_moves ≠ [] ∧ get_possible_moves s ≠ [] ∧
     best_moves `sublist_of` cells_unowned s).
Proof.
  destruct (decide (get_possible_moves s = [])) as [Hterm|Hne].
  - pose proof (get_best_moves_rec_raises s Hterm) as Hraise.
    split; [done|]. split.
    + intros e He. rewrite Hraise in He. by injection He as <-.
    + intros best_moves Hret. rewrite Hraise in Hret. discriminate.
  - destruct (get_best_moves_rec_returns s Hne) as (best & [Hin _] & Hret).
    split; [|split].
    + split; [|done]. intros Hraise. rewrite Hret in Hraise. discriminate.
    + intros e He. rewrite Hret in He. discriminate.
    + intros best_moves Hret'. rewrite Hret in Hret'. injection Hret' as <-.
      split; [|split; [done|]].
      * apply list_elem_of_fmap in Hin as (mv & Hkey & Hmv).
        intros Hnil.
        assert (Hf : mv ∈ filter (λ mv', negated_child_score s mv' = best)
                       (get_possible_moves s)) by (by apply list_elem_of_filter).
        rewrite Hnil in Hf. by apply elem_of_nil in Hf.
      * etrans; [apply sublist_filter|].
        unfold get_possible_moves. destruct (is_over _); [|done].
        apply sublist_nil_l.
Qed.

Lemma get_best_moves_rec_outcome_witness :
  [3] ≠ [] ∧ get_possible_moves x_to_win ≠ [] ∧
  [3] `sublist_of` cells_unowned x_to_win.
Proof.
  destruct (get_best_moves_rec_outcome x_to_win) as (_ & _ & Hret).
  apply Hret. vm_compute. reflexivity.
Defined.

Lemma state_str_Returns (s : TicTacToeState) (text : string) :
  state_str s = Returns text →
  ∃ v1 v2 v3 v4 v5 v6 v7 v8 v9,
    (cells_owned s !! 1 = Some v1 ∧ cells_owned s !! 2 = Some v2 ∧
     cells_owned s !! 3 = Some v3 ∧ cells_owned s !! 4 = Some v4 ∧
     cells_owned s !! 5 = Some v5 ∧ cells_owned s !! 6 = Some v6 ∧
     cells_owned s !! 7 = Some v7 ∧ cells_owned s !! 8 = Some v8 ∧
     cells_owned s !! 9 = Some v9) ∧
    text = nl +:+ board_row v1 v2 v3
           +:+ spaces 8 +:+ "_________" +:+ nl
           +:+ spaces 29 +:+ nl
           +:+ board_row v4 v5 v6
           +:+ spaces 8 +:+ "_________" +:+ nl
           +:+ spaces 8 +:+ nl
           +:+ board_row v7 v8 v9
           +:+ spaces 8.
Proof.
  unfold state_str, dict_getitem.
  destruct (cells_owned s !! 1) as [v1|]; [|done].
  destruct (cells_owned s !! 2) as [v2|]; [|done].
  destruct (cells_owned s !! 3) as [v3|]; [|done].
  destruct (cells_owned s !! 4) as [v4|]; [|done].
  destruct (cells_owned s !! 5) as [v5|]; [|done].
  destruct (cells_owned s !! 6) as [v6|]; [|done].
  destruct (cells_owned s !! 7) as [v7|]; [|done].
  destruct (cells_owned s !! 8) as [v8|]; [|done].
  destruct (cells_owned s !! 9) as [v9|]; [|done].
  simpl bind. intros [= <-].
  exists v1, v2, v3, v4, v5, v6, v7, v8, v9. done.
Qed.

(** What a cell of a well-shaped board is shown as: one character. *)
Lemma board_cell_char (s : TicTacToeState) (cell : Z) (v : pyval) :
  board_ok s → 1 ≤ cell ≤ 9 → cells_owned s !! cell = Some v →
  (v = PInt cell ∨ v = PStr "X" ∨ v = PStr "O") ∧
  ∃ ch, py_str v = String ch EmptyString.
Proof.
  intros [Hcells _ _] Hcell Hv.
  destruct (Hcells cell Hcell) as [[Hl _]|(p & Hp & Hl & _)];
    rewrite Hl in Hv; injection Hv as <-.
  - split; [by left|].
    assert (Hc : cell = 1 ∨ cell = 2 ∨ cell = 3 ∨ cell = 4 ∨ cell = 5 ∨
                 cell = 6 ∨ cell = 7 ∨ cell = 8 ∨ cell = 9) by lia.
    repeat (destruct Hc as [-> | Hc]; [by eexists|]). subst. by eexists.
  - destruct Hp as [-> | ->]; (split; [auto|by eexists]).
Qed.

Lemma board_cell_shown_inj (cell : Z) (v w : pyval) :
  1 ≤ cell ≤ 9 →
  v = PInt cell ∨ v = PStr "X" ∨ v = PStr "O" →
  w = PInt cell ∨ w = PStr "X" ∨ w = PStr "O" →
  py_str v = py_str w → v = w.
Proof.
  intros Hcell Hv Hw Heq.
  assert (Hc : cell = 1 ∨ cell = 2 ∨ cell = 3 ∨ cell = 4 ∨ cell = 5 ∨
               cell = 6 ∨ cell = 7 ∨ cell = 8 ∨ cell = 9) by lia.
  destruct Hv as [-> | [-> | ->]], Hw as [-> | [-> | ->]]; try done;
    exfalso;
    repeat (destruct Hc as [-> | Hc]; [vm_compute in Heq; discriminate Heq|]);
    subst; vm_compute in Heq; discriminate Heq.
Qed.

(** X15.  On reachable states the text [__str__] returns has 138
    characters and shows the board without ambiguity: two reachable states
    with the same text have the same dict and the same list of unowned
    cells. *)
Theorem state_str_shows_board (s1 s2 : TicTacToeState) (text : string) :
  reachable s1 → reachable s2 →
  state_str s1 = Returns text → state_str s2 = Returns text →
  String.length text = 138%nat ∧
  cells_owned s1 = cells_owned s2 ∧
  cells_unowned s1 = cells_unowned s2.
Proof.
  intros Hr1 Hr2 Ht1 Ht2.
  pose proof (reachable_board_shape s1 Hr1) as Hok1.
  pose proof (reachable_board_shape s2 Hr2) as Hok2.
  apply state_str_Returns in Ht1
    as (v1 & v2 & v3 & v4 & v5 & v6 & v7 & v8 & v9 & Hv & Ht1).
  apply state_str_Returns in Ht2
    as (w1 & w2 & w3 & w4 & w5 & w6 & w7 & w8 & w9 & Hw & Ht2).
  destruct Hv as (Hv1 & Hv2 & Hv3 & Hv4 & Hv5 & Hv6 & Hv7 & Hv8 & Hv9).
  destruct Hw as (Hw1 & Hw2 & Hw3 & Hw4 & Hw5 & Hw6 & Hw7 & Hw8 & Hw9).
  destruct (board_cell_char s1 1 v1 Hok1) as [Ho1 [a1 Ha1]]; [lia|done|].
  destruct (board_cell_char s1 2 v2 Hok1) as [Ho2 [a2 Ha2]]; [lia|done|].
  destruct (board_cell_char s1 3 v3 Hok1) as [Ho3 [a3 Ha3]]; [lia|done|].
  destruct (board_cell_char s1 4 v4 Hok1) as [Ho4 [a4 Ha4]]; [lia|done|].
  destruct (board_cell_char s1 5 v5 Hok1) as [Ho5 [a5 Ha5]]; [lia|done|].
  destruct (board_cell_char s1 6 v6 Hok1) as [Ho6 [a6 Ha6]]; [lia|done|].
  destruct (board_cell_char s1 7 v7 Hok1) as [Ho7 [a7 Ha7]]; [lia|done|].
  destruct (board_cell_char s1 8 v8 Hok1) as [Ho8 [a8 Ha8]]; [lia|done|].
  destruct (board_cell_char s1 9 v9 Hok1) as [Ho9 [a9 Ha9]]; [lia|done|].
  destruct (board_cell_char s2 1 w1 Hok2) as [Hp1 [b1 Hb1]]; [lia|done|].
  destruct (board_cell_char s2 2 w2 Hok2) as [Hp2 [b2 Hb2]]; [lia|done|].
  destruct (board_cell_char s2 3 w3 Hok2) as [Hp3 [b3 Hb3]]; [lia|done|].
  destruct (board_cell_char s2 4 w4 Hok2) as [Hp4 [b4 Hb4]]; [lia|done|].
  destruct (board_cell_char s2 5 w5 Hok2) as [Hp5 [b5 Hb5]]; [lia|done|].
  destruct (board_cell_char s2 6 w6 Hok2) as [Hp6 [b6 Hb6]]; [lia|done|].
  destruct (board_cell_char s2 7 w7 Hok2) as [Hp7 [b7 Hb7]]; [lia|done|].
  destruct (board_cell_char s2 8 w8 Hok2) as [Hp8 [b8 Hb8]]; [lia|done|].
  destruct (board_cell_char s2 9 w9 Hok2) as [Hp9 [b9 Hb9]]; [lia|done|].
  unfold board_row in Ht1, Ht2.
  assert (Hsame : v1 = w1 ∧ v2 = w2 ∧ v3 = w3 ∧ v4 = w4 ∧ v5 = w5 ∧
                  v6 = w6 ∧ v7 = w7 ∧ v8 = w8 ∧ v9 = w9).
  { assert (Hchars : py_str v1 = py_str w1 ∧ py_str v2 = py_str w2 ∧
                     py_str v3 = py_str w3 ∧ py_str v4 = py_str w4 ∧
                     py_str v5 = py_str w5 ∧ py_str v6 = py_str w6 ∧
                     py_str v7 = py_str w7 ∧ py_str v8 = py_str w8 ∧
                     py_str v9 = py_str w9).
    { rewrite Ht1 in Ht2.
      rewrite Ha1, Ha2, Ha3, Ha4, Ha5, Ha6, Ha7, Ha8, Ha9,
        Hb1, Hb2, Hb3, Hb4, Hb5, Hb6, Hb7, Hb8, Hb9 in *.
      cbv in Ht2. injection Ht2 as -> -> -> -> -> -> -> -> ->. done. }
    destruct Hchars as (E1 & E2 & E3 & E4 & E5 & E6 & E7 & E8 & E9).
    repeat split; eapply board_cell_shown_inj; try eassumption; lia. }
  destruct Hsame as (-> & -> & -> & -> & -> & -> & -> & -> & ->).
  assert (Hdict : cells_owned s1 = cells_owned s2).
  { apply map_eq. intros cell.
    destruct (decide (1 ≤ cell ≤ 9)) as [Hcell|Hcell].
    - assert (Hc : cell = 1 ∨ cell = 2 ∨ cell = 3 ∨ cell = 4 ∨ cell = 5 ∨
                   cell = 6 ∨ cell = 7 ∨ cell = 8 ∨ cell = 9) by lia.
      repeat (destruct Hc as [-> | Hc]; [congruence|]). subst. congruence.
    - by rewrite (board_keys s1 Hok1 cell Hcell), (board_keys s2 Hok2 cell Hcell). }
  split; [|split; [done|]].
  - rewrite Ht1, Ha1, Ha2, Ha3, Ha4, Ha5, Ha6, Ha7, Ha8, Ha9. reflexivity.
  - rewrite (state_inv_unowned s1 (reachable_inv s1 Hr1)),
      (state_inv_unowned s2 (reachable_inv s2 Hr2)).
    unfold owned_cells. by rewrite Hdict.
Qed.

Lemma state_str_shows_board_witness :
  String.length (match state_str x_to_win with Returns text => text | Raises _ => EmptyString end)
    = 138%nat ∧
  cells_owned x_to_win = cells_owned (two_in_a_row "X" "O") ∧
  cells_unowned x_to_win = cells_unowned (two_in_a_row "X" "O").
Proof.
  assert (Hreach : reachable (two_in_a_row "X" "O")).
  { replace (two_in_a_row "X" "O") with x_to_win by (vm_compute; reflexivity).
    apply x_to_win_reachable. }
  apply (state_str_shows_board x_to_win (two_in_a_row "X" "O")).
  - apply x_to_win_reachable.
  - exact Hreach.
  - vm_compute. reflexivity.
  - vm_compute. reflexivity.
Defined.
